(** * Task 3: Feistel block cipher, CBC / CFB chaining and the error-propagation
      analyzer of [task3_modes.py], embedded in Rocq.

    Python integers are unbounded, so blocks, keys and subkeys are [Z]; the
    bit operators [>>], [<<], [&], [|], [^] are [Z.shiftr], [Z.shiftl],
    [Z.land], [Z.lor], [Z.lxor] (both sides use the infinite two's-complement
    reading of negative numbers).  [bytes] values are [list byte].  A Python
    [str] is a list of code points.  Raised exceptions are the [Raise] branch
    of [result]. *)

From Stdlib Require Import ZArith List Lia Bool String Ascii.
From Stdlib Require Import Init.Byte Strings.Byte.
Import ListNotations.

Local Open Scope Z_scope.

(** ** Exceptions and the error monad *)

Inductive exn : Type :=
| OverflowError          (* int.to_bytes: negative, or too big to convert *)
| ValueError (msg : string)
| UnicodeEncodeError     (* str.encode: surrogates not allowed *)
| IndexError.            (* list index out of range *)

Inductive result (A : Type) : Type :=
| Ok (a : A)
| Raise (e : exn).
Arguments Ok {A} a.
Arguments Raise {A} e.

Definition bind {A B : Type} (m : result A) (k : A -> result B) : result B :=
  match m with
  | Ok a => k a
  | Raise e => Raise e
  end.

Declare Scope py_scope.
Delimit Scope py_scope with py.
Notation "x <- m ;; k" := (bind m (fun x => k))
  (at level 61, m at next level, right associativity) : py_scope.
Notation "' p <- m ;; k" := (bind m (fun x => match x with p => k end))
  (at level 61, p pattern, m at next level, right associativity) : py_scope.
Local Open Scope py_scope.

(** [for x in xs: s = body(s, x)] where the body may raise. *)
Fixpoint for_each {S A : Type} (xs : list A) (body : S -> A -> result S) (s : S)
  : result S :=
  match xs with
  | [] => Ok s
  | x :: xs' => s' <- body s x ;; for_each xs' body s'
  end.

(** ** The Python built-ins the module relies on *)

Module Py.

Definition byte_val (b : byte) : Z := Z.of_N (Byte.to_N b).

Definition byte_of_Z (z : Z) : byte :=
  match Byte.of_N (Z.to_N (z mod 256)) with
  | Some b => b
  | None => x00
  end.

(** Big-endian digits of [x], exactly [len] of them. *)
Fixpoint be_bytes (len : nat) (x : Z) : list byte :=
  match len with
  | O => []
  | S n => be_bytes n (x / 256) ++ [byte_of_Z x]
  end.

(** [x.to_bytes(len, "big")] (unsigned). *)
Definition int_to_bytes (x : Z) (len : nat) : result (list byte) :=
  if x <? 0 then Raise OverflowError
  else if 2 ^ (8 * Z.of_nat len) <=? x then Raise OverflowError
  else Ok (be_bytes len x).

(** [int.from_bytes(data, "big")]. *)
Definition int_from_bytes (data : list byte) : Z :=
  fold_left (fun acc b => acc * 256 + byte_val b) data 0.

(** [range(n)]: empty when [n <= 0]. *)
Definition range (n : Z) : list Z := map Z.of_nat (seq 0 (Z.to_nat n)).

(** [xs[i]] for a non-negative literal index. *)
Definition getitem {A : Type} (xs : list A) (i : nat) : result A :=
  match nth_error xs i with
  | Some x => Ok x
  | None => Raise IndexError
  end.

Fixpoint pos_bit_count (p : positive) : Z :=
  match p with
  | xH => 1
  | xO q => pos_bit_count q
  | xI q => 1 + pos_bit_count q
  end.

(** [x.bit_count()]: number of ones in the binary expansion of [abs(x)]. *)
Definition int_bit_count (x : Z) : Z :=
  match x with
  | Z0 => 0
  | Zpos p => pos_bit_count p
  | Zneg p => pos_bit_count p
  end.

(** [data.ljust(width, b"\x00")]. *)
Definition bytes_ljust (data : list byte) (width : nat) : list byte :=
  data ++ repeat x00 (width - List.length data).

(** A [str] is a sequence of code points in [0, 0x10FFFF]. *)
Definition str : Type := list N.

Definition str_of_ascii (s : string) : str :=
  map N_of_ascii (list_ascii_of_string s).

Definition cont (n : N) : byte := byte_of_Z (0x80 + Z.of_N n mod 64).

(** UTF-8 bytes of one code point.  Lone surrogates are not encodable; values
    above 0x10FFFF are not code points (no [str] holds one) and are refused
    the same way. *)
Definition encode_code_point (c : N) : result (list byte) :=
  if (c <? 0x80)%N then Ok [byte_of_Z (Z.of_N c)]
  else if (c <? 0x800)%N then
    Ok [byte_of_Z (0xC0 + Z.of_N (c / 64)); cont c]
  else if (c <? 0x10000)%N then
    if ((0xD800 <=? c) && (c <=? 0xDFFF))%N then Raise UnicodeEncodeError
    else Ok [byte_of_Z (0xE0 + Z.of_N (c / 4096)); cont (c / 64); cont c]
  else if (c <=? 0x10FFFF)%N then
    Ok [byte_of_Z (0xF0 + Z.of_N (c / 262144)); cont (c / 4096);
        cont (c / 64); cont c]
  else Raise UnicodeEncodeError.

(** [text.encode("utf-8")]. *)
Definition str_encode_utf8 (text : str) : result (list byte) :=
  for_each text
    (fun acc c => bs <- encode_code_point c ;; Ok (acc ++ bs)) [].

End Py.

(** ** BLAKE2s (RFC 7693), unkeyed: the function behind [hashlib.blake2s]

    The cipher below takes its hash as a parameter; this module is the
    instance used to run it on concrete inputs. *)

Module Blake2s.

Definition IV : list Z :=
  [0x6A09E667; 0xBB67AE85; 0x3C6EF372; 0xA54FF53A;
   0x510E527F; 0x9B05688C; 0x1F83D9AB; 0x5BE0CD19].

Definition SIGMA : list (list nat) :=
  [[0; 1; 2; 3; 4; 5; 6; 7; 8; 9; 10; 11; 12; 13; 14; 15];
   [14; 10; 4; 8; 9; 15; 13; 6; 1; 12; 0; 2; 11; 7; 5; 3];
   [11; 8; 12; 0; 5; 2; 15; 13; 10; 14; 3; 6; 7; 1; 9; 4];
   [7; 9; 3; 1; 13; 12; 11; 14; 2; 6; 5; 10; 4; 0; 15; 8];
   [9; 0; 5; 7; 2; 4; 10; 15; 14; 1; 11; 12; 6; 8; 3; 13];
   [2; 12; 6; 10; 0; 11; 8; 3; 4; 13; 7; 5; 15; 14; 1; 9];
   [12; 5; 1; 15; 14; 13; 4; 10; 0; 7; 6; 3; 9; 2; 8; 11];
   [13; 11; 7; 14; 12; 1; 3; 9; 5; 0; 15; 4; 8; 6; 2; 10];
   [6; 15; 14; 9; 11; 3; 0; 8; 12; 2; 13; 7; 1; 4; 10; 5];
   [10; 2; 8; 4; 7; 6; 1; 5; 15; 11; 9; 14; 3; 12; 13; 0]]%nat.

Definition w32 (x : Z) : Z := x mod 2 ^ 32.

Definition rotr32 (x n : Z) : Z :=
  Z.lor (Z.shiftr x n) (w32 (Z.shiftl x (32 - n))).

Definition get (v : list Z) (i : nat) : Z := nth i v 0.

Fixpoint set (v : list Z) (i : nat) (x : Z) : list Z :=
  match v, i with
  | [], _ => []
  | _ :: v', O => x :: v'
  | y :: v', S j => y :: set v' j x
  end.

Definition G (v : list Z) (a b c d : nat) (x y : Z) : list Z :=
  let v := set v a (w32 (get v a + get v b + x)) in
  let v := set v d (rotr32 (Z.lxor (get v d) (get v a)) 16) in
  let v := set v c (w32 (get v c + get v d)) in
  let v := set v b (rotr32 (Z.lxor (get v b) (get v c)) 12) in
  let v := set v a (w32 (get v a + get v b + y)) in
  let v := set v d (rotr32 (Z.lxor (get v d) (get v a)) 8) in
  let v := set v c (w32 (get v c + get v d)) in
  set v b (rotr32 (Z.lxor (get v b) (get v c)) 7).

Definition mix_round (m : list Z) (v : list Z) (s : list nat) : list Z :=
  let w i := get m (nth i s O) in
  let v := G v 0 4 8 12 (w 0%nat) (w 1%nat) in
  let v := G v 1 5 9 13 (w 2%nat) (w 3%nat) in
  let v := G v 2 6 10 14 (w 4%nat) (w 5%nat) in
  let v := G v 3 7 11 15 (w 6%nat) (w 7%nat) in
  let v := G v 0 5 10 15 (w 8%nat) (w 9%nat) in
  let v := G v 1 6 11 12 (w 10%nat) (w 11%nat) in
  let v := G v 2 7 8 13 (w 12%nat) (w 13%nat) in
  G v 3 4 9 14 (w 14%nat) (w 15%nat).

(** Little-endian 32-bit word number [i] of a 64-byte block. *)
Definition word_at (block : list byte) (i : nat) : Z :=
  let b k := Py.byte_val (nth (4 * i + k) block x00) in
  b 0%nat + 256 * b 1%nat + 65536 * b 2%nat + 16777216 * b 3%nat.

Definition compress (h : list Z) (block : list byte) (t : Z) (last : bool)
  : list Z :=
  let m := map (word_at block) (seq 0 16) in
  let v := h ++ IV in
  let v := set v 12 (Z.lxor (get v 12) (w32 t)) in
  let v := set v 13 (Z.lxor (get v 13) (w32 (Z.shiftr t 32))) in
  let v := if last then set v 14 (Z.lxor (get v 14) 0xFFFFFFFF) else v in
  let v := fold_left (mix_round m) SIGMA v in
  map (fun i => Z.lxor (Z.lxor (get h i) (get v i)) (get v (i + 8))) (seq 0 8).

(** Absorb the message 64 bytes at a time; the last (possibly empty or
    partial) block is zero-padded and compressed with the final flag. *)
Fixpoint absorb (fuel : nat) (h : list Z) (t : Z) (data : list byte)
  : list Z :=
  if (List.length data <=? 64)%nat then
    compress h (Py.bytes_ljust data 64) (t + Z.of_nat (List.length data)) true
  else
    match fuel with
    | O => h
    | S fuel' =>
        absorb fuel' (compress h (firstn 64 data) (t + 64) false) (t + 64)
               (skipn 64 data)
    end.

Definition le32 (w : Z) : list byte :=
  [Py.byte_of_Z w; Py.byte_of_Z (w / 256); Py.byte_of_Z (w / 65536);
   Py.byte_of_Z (w / 16777216)].

(** [hashlib.blake2s(data, digest_size=n).digest()] for [1 <= n <= 32]. *)
Definition blake2s (data : list byte) (digest_size : nat) : list byte :=
  let h0 := set IV 0 (Z.lxor (get IV 0)
                        (Z.lxor 0x01010000 (Z.of_nat digest_size))) in
  let h := absorb (List.length data) h0 0 data in
  firstn digest_size (flat_map le32 (map (get h) (seq 0 8))).

End Blake2s.

(** ** The module [task3_modes.py] *)

Definition BLOCK_SIZE : Z := 128.
Definition HALF_BLOCK : Z := BLOCK_SIZE / 2.
Definition HALF_MASK : Z := Z.shiftl 1 HALF_BLOCK - 1.
Definition ROUNDS : Z := 8.
Definition BIT_TO_FLIP : Z := 17.

Record ModeReport : Type := mkModeReport {
  mode : string;
  bit_flip_index : Z;
  p1_diff : Z;
  p2_diff : Z;
  explanation : string
}.

Definition newline : string := String (ascii_of_nat 10) EmptyString.

(** One invocation of a block primitive, as seen by a mode wrapper. *)
Inductive prim_call : Type :=
| EncryptCall (block key : Z)
| DecryptCall (block key : Z).

Definition is_encrypt_call (c : prim_call) : bool :=
  match c with
  | EncryptCall _ _ => true
  | DecryptCall _ _ => false
  end.

Section Task3.

(** [blake2s data n] stands for [hashlib.blake2s(data, digest_size=n).digest()]. *)
Variable blake2s : list byte -> nat -> list byte.

Definition derive_subkeys (key rounds : Z) : result (list Z) :=
  seed <- Py.int_to_bytes key 16 ;;
  for_each (Py.range rounds)
    (fun subkeys counter =>
       counter_bytes <- Py.int_to_bytes counter 2 ;;
       let digest := blake2s (seed ++ counter_bytes) 8 in
       Ok (subkeys ++ [Py.int_from_bytes digest]))
    [].

Definition round_function (half_block subkey : Z) : result Z :=
  hb <- Py.int_to_bytes half_block 8 ;;
  sk <- Py.int_to_bytes subkey 8 ;;
  let data := hb ++ sk in
  let digest := blake2s data 8 in
  Ok (Py.int_from_bytes digest).

Definition encrypt_round (st : Z * Z) (subkey : Z) : result (Z * Z) :=
  let '(left_, right_) := st in
  f <- round_function right_ subkey ;;
  Ok (right_, Z.land (Z.lxor left_ f) HALF_MASK).

Definition decrypt_round (st : Z * Z) (subkey : Z) : result (Z * Z) :=
  let '(left_, right_) := st in
  f <- round_function left_ subkey ;;
  Ok (Z.land (Z.lxor right_ f) HALF_MASK, left_).

Definition encrypt_block (block key : Z) : result Z :=
  let left_ := Z.land (Z.shiftr block HALF_BLOCK) HALF_MASK in
  let right_ := Z.land block HALF_MASK in
  subkeys <- derive_subkeys key ROUNDS ;;
  '(left_, right_) <- for_each subkeys encrypt_round (left_, right_) ;;
  Ok (Z.lor (Z.shiftl (Z.land left_ HALF_MASK) HALF_BLOCK)
            (Z.land right_ HALF_MASK)).

Definition decrypt_block (block key : Z) : result Z :=
  let left_ := Z.land (Z.shiftr block HALF_BLOCK) HALF_MASK in
  let right_ := Z.land block HALF_MASK in
  subkeys <- derive_subkeys key ROUNDS ;;
  '(left_, right_) <- for_each (rev subkeys) decrypt_round (left_, right_) ;;
  Ok (Z.lor (Z.shiftl (Z.land left_ HALF_MASK) HALF_BLOCK)
            (Z.land right_ HALF_MASK)).

Definition to_block (text : Py.str) : result Z :=
  data <- Py.str_encode_utf8 text ;;
  if (16 <? List.length data)%nat
  then Raise (ValueError "Plaintext block must be <= 16 bytes")
  else Ok (Py.int_from_bytes (Py.bytes_ljust data 16)).

Definition flip_bit (value bit_index : Z) : result Z :=
  if bit_index <? 0 then Raise (ValueError "negative shift count")
  else Ok (Z.lxor value (Z.shiftl 1 bit_index)).

Definition bit_diff (a b : Z) : Z := Py.int_bit_count (Z.lxor a b).

(** Each mode is a loop over the blocks whose state is the output list built
    so far together with the chaining value ([prev] / [feedback]); the four
    [_body] functions are the loop bodies. *)
Definition cbc_encrypt_body (key : Z) (st : list Z * Z) (block : Z)
  : result (list Z * Z) :=
  let '(ciphertext, prev) := st in
  c <- encrypt_block (Z.lxor block prev) key ;;
  Ok (ciphertext ++ [c], c).

Definition cbc_encrypt (blocks : list Z) (key iv : Z) : result (list Z) :=
  '(ciphertext, _) <- for_each blocks (cbc_encrypt_body key) ([], iv) ;;
  Ok ciphertext.

Definition cbc_decrypt_body (key : Z) (st : list Z * Z) (block : Z)
  : result (list Z * Z) :=
  let '(plaintext, prev) := st in
  d <- decrypt_block block key ;;
  let p := Z.lxor d prev in
  Ok (plaintext ++ [p], block).

Definition cbc_decrypt (blocks : list Z) (key iv : Z) : result (list Z) :=
  '(plaintext, _) <- for_each blocks (cbc_decrypt_body key) ([], iv) ;;
  Ok plaintext.

Definition cfb_encrypt_body (key : Z) (st : list Z * Z) (block : Z)
  : result (list Z * Z) :=
  let '(ciphertext, feedback) := st in
  keystream <- encrypt_block feedback key ;;
  let c := Z.lxor block keystream in
  Ok (ciphertext ++ [c], c).

Definition cfb_encrypt (blocks : list Z) (key iv : Z) : result (list Z) :=
  '(ciphertext, _) <- for_each blocks (cfb_encrypt_body key) ([], iv) ;;
  Ok ciphertext.

Definition cfb_decrypt_body (key : Z) (st : list Z * Z) (block : Z)
  : result (list Z * Z) :=
  let '(plaintext, feedback) := st in
  keystream <- encrypt_block feedback key ;;
  let p := Z.lxor block keystream in
  Ok (plaintext ++ [p], block).

Definition cfb_decrypt (blocks : list Z) (key iv : Z) : result (list Z) :=
  '(plaintext, _) <- for_each blocks (cfb_decrypt_body key) ([], iv) ;;
  Ok plaintext.

(** The loop of [cfb_decrypt] again, this time also recording every call it
    makes to a block primitive, in order, up to and including a raising one. *)
Fixpoint cfb_decrypt_loop (blocks : list Z) (key : Z) (st : list Z * Z)
         (calls : list prim_call) : list prim_call * result (list Z * Z) :=
  match blocks with
  | [] => (calls, Ok st)
  | block :: rest =>
      let '(plaintext, feedback) := st in
      let calls := calls ++ [EncryptCall feedback key] in
      match encrypt_block feedback key with
      | Raise e => (calls, Raise e)
      | Ok keystream =>
          let p := Z.lxor block keystream in
          cfb_decrypt_loop rest key (plaintext ++ [p], block) calls
      end
  end.

Definition cfb_decrypt_traced (blocks : list Z) (key iv : Z)
  : list prim_call * result (list Z) :=
  let '(calls, r) := cfb_decrypt_loop blocks key ([], iv) [] in
  (calls, '(plaintext, _) <- r ;; Ok plaintext).

(** CFB decryption as section 4.4 of the specification words it: feedback
    starts as the IV; block by block, keystream = encrypt_block(feedback, key),
    p[i] = c[i] XOR keystream, feedback <- c[i]. *)
Fixpoint cfb_decrypt_spec (c : list Z) (key feedback : Z) : result (list Z) :=
  match c with
  | [] => Ok []
  | ci :: rest =>
      keystream <- encrypt_block feedback key ;;
      let pi := Z.lxor ci keystream in
      ps <- cfb_decrypt_spec rest key ci ;;
      Ok (pi :: ps)
  end.

Definition analyze_cbc (key iv : Z) (p_blocks : list Z) : result ModeReport :=
  c_blocks <- cbc_encrypt p_blocks key iv ;;
  clean_plain <- cbc_decrypt c_blocks key iv ;;
  c0 <- Py.getitem c_blocks 0 ;;
  corrupted_c1 <- flip_bit c0 BIT_TO_FLIP ;;
  c1 <- Py.getitem c_blocks 1 ;;
  corrupted_plain <- cbc_decrypt [corrupted_c1; c1] key iv ;;
  a0 <- Py.getitem clean_plain 0 ;;
  b0 <- Py.getitem corrupted_plain 0 ;;
  let p1_diff := bit_diff a0 b0 in
  a1 <- Py.getitem clean_plain 1 ;;
  b1 <- Py.getitem corrupted_plain 1 ;;
  let p2_diff := bit_diff a1 b1 in
  let explanation :=
    ("flip sits inside Dk(C1), so diffusion destroys essentially the whole block."
     ++ newline ++
     "only the XOR with C1 handles P2, so a single bit error leaks straight through."
    )%string in
  Ok (mkModeReport "CBC mode" BIT_TO_FLIP p1_diff p2_diff explanation).

Definition analyze_cfb (key iv : Z) (p_blocks : list Z) : result ModeReport :=
  c_blocks <- cfb_encrypt p_blocks key iv ;;
  clean_plain <- cfb_decrypt c_blocks key iv ;;
  c0 <- Py.getitem c_blocks 0 ;;
  corrupted_c1 <- flip_bit c0 BIT_TO_FLIP ;;
  c1 <- Py.getitem c_blocks 1 ;;
  corrupted_plain <- cfb_decrypt [corrupted_c1; c1] key iv ;;
  a0 <- Py.getitem clean_plain 0 ;;
  b0 <- Py.getitem corrupted_plain 0 ;;
  let p1_diff := bit_diff a0 b0 in
  a1 <- Py.getitem clean_plain 1 ;;
  b1 <- Py.getitem corrupted_plain 1 ;;
  let p2_diff := bit_diff a1 b1 in
  let explanation :=
    ("C1 feeds P1' via XOR only, so the corruption remains confined to that bit."
     ++ newline ++
     "C1 is the feedback input to Ek for block 2, so the keystream changes everywhere."
    )%string in
  Ok (mkModeReport "CFB mode" BIT_TO_FLIP p1_diff p2_diff explanation).

End Task3.

(** [int_to_hex]: the f-string [f"0x{block:032x}"].  [format_x n] is
    [format(n, "x")] for [n >= 0], lowercase and without leading zeros;
    [format_032x] adds the sign and pads with zeros between the sign and the
    digits up to 32 characters in all, as the [032] of the format asks. *)
Definition hex_alphabet : list ascii :=
  list_ascii_of_string "0123456789abcdef".

Definition hex_digit (d : Z) : ascii := nth (Z.to_nat d) hex_alphabet "0"%char.

Fixpoint hex_digits (fuel : nat) (n : Z) (acc : list ascii) : list ascii :=
  match fuel with
  | O => acc
  | S fuel' =>
      let acc' := hex_digit (n mod 16) :: acc in
      if n / 16 =? 0 then acc' else hex_digits fuel' (n / 16) acc'
  end.

Definition format_x (n : Z) : list ascii :=
  hex_digits (S (Z.to_nat (Z.log2 n))) n [].

Definition format_032x (x : Z) : list ascii :=
  let sign := if x <? 0 then ["-"%char] else [] in
  let digits := format_x (Z.abs x) in
  sign ++ repeat "0"%char (32 - List.length sign - List.length digits) ++ digits.

Definition int_to_hex (block : Z) : string :=
  string_of_list_ascii (list_ascii_of_string "0x" ++ format_032x block).

(** [n] written with exactly [k] hexadecimal digits (the low [k] digits). *)
Fixpoint fixed_hex (k : nat) (n : Z) : list ascii :=
  match k with
  | O => []
  | S k' => fixed_hex k' (n / 16) ++ [hex_digit (n mod 16)]
  end.

(** The inputs [main] feeds to the analyzers. *)
Definition bytes_of_ascii (s : string) : list byte :=
  map byte_of_ascii (list_ascii_of_string s).

Definition demo_key : Z := Py.int_from_bytes (bytes_of_ascii "task3_demo_key!!").
Definition demo_iv : Z := Py.int_from_bytes (bytes_of_ascii "task3_demo_iv__").
Definition demo_p1 : result Z := to_block (Py.str_of_ascii "Plaintext block1").
Definition demo_p2 : result Z := to_block (Py.str_of_ascii "Plaintext block2").

Definition demo_reports : result (list ModeReport) :=
  p1 <- demo_p1 ;;
  p2 <- demo_p2 ;;
  r1 <- analyze_cbc Blake2s.blake2s demo_key demo_iv [p1; p2] ;;
  r2 <- analyze_cfb Blake2s.blake2s demo_key demo_iv [p1; p2] ;;
  Ok [r1; r2].

(** The number of bit positions below [n] at which [a] and [b] differ: the
    Hamming distance of two [n]-bit values. *)
Definition differing_bits (n : nat) (a b : Z) : Z :=
  Z.of_nat (List.length
              (filter (fun i => xorb (Z.testbit a i) (Z.testbit b i))
                      (map Z.of_nat (seq 0 n)))).

(** [x] fits in [n] bits. *)
Definition in_width (n x : Z) : Prop := 0 <= x < 2 ^ n.

(** Unfolding and stepping of the module's functions, by their global names
    (inside the property section the names are abbreviations applied to the
    hash). *)
Ltac unfold_schedule := unfold derive_subkeys.
Ltac unfold_round := unfold round_function, encrypt_round, decrypt_round.
Ltac unfold_block := unfold encrypt_block, decrypt_block.
Ltac unfold_body :=
  unfold cbc_encrypt_body, cbc_decrypt_body, cfb_encrypt_body, cfb_decrypt_body.
Ltac unfold_mode := unfold cbc_encrypt, cbc_decrypt, cfb_encrypt, cfb_decrypt.
Ltac unfold_analyze := unfold analyze_cbc, analyze_cfb.
Ltac unfold_traced := unfold cfb_decrypt_traced.
Ltac step_traced := cbn [cfb_decrypt_loop for_each].
Ltac step_spec := cbn [cfb_decrypt_spec for_each].

(** Closed bounds [0 <= c < 2^n], by evaluation. *)
Ltac by_computation :=
  split; [vm_compute; discriminate | vm_compute; reflexivity].

(** * Properties *)

(** ** Generic facts about the error monad and loops *)

Lemma for_each_app {S A : Type} (xs ys : list A) (body : S -> A -> result S) (s : S) :
  for_each (xs ++ ys) body s = (s' <- for_each xs body s ;; for_each ys body s').
Proof.
  revert s; induction xs as [|x xs IH]; intros s; simpl; [reflexivity|].
  destruct (body s x) as [s'|e]; simpl; [apply IH | reflexivity].
Qed.

(** ** Bytes and integers *)

Lemma byte_val_range (b : byte) : 0 <= Py.byte_val b < 256.
Proof.
  unfold Py.byte_val. pose proof (Byte.to_N_bounded b). lia.
Qed.

Lemma int_from_bytes_acc (data : list byte) (acc : Z) (k : Z) :
  0 <= k -> in_width k acc ->
  in_width (k + 8 * Z.of_nat (List.length data))
           (fold_left (fun a b => a * 256 + Py.byte_val b) data acc).
Proof.
  revert acc k; induction data as [|b data IH]; intros acc k Hk Hacc.
  - cbn [fold_left List.length]. replace (k + 8 * Z.of_nat 0) with k by lia. exact Hacc.
  - cbn [fold_left List.length].
    replace (k + 8 * Z.of_nat (S (List.length data)))
      with ((k + 8) + 8 * Z.of_nat (List.length data)) by lia.
    apply IH; [lia|].
    unfold in_width in *. pose proof (byte_val_range b).
    rewrite Z.pow_add_r by lia. change (2 ^ 8) with 256. nia.
Qed.

Lemma int_from_bytes_range (data : list byte) :
  in_width (8 * Z.of_nat (List.length data)) (Py.int_from_bytes data).
Proof.
  unfold Py.int_from_bytes.
  apply (int_from_bytes_acc data 0 0); [lia | unfold in_width; simpl; lia].
Qed.

Lemma int_to_bytes_ok (x : Z) (len : nat) :
  in_width (8 * Z.of_nat len) x -> Py.int_to_bytes x len = Ok (Py.be_bytes len x).
Proof.
  intros [H0 H1]. unfold Py.int_to_bytes.
  destruct (Z.ltb_spec x 0); [lia|].
  destruct (Z.leb_spec (2 ^ (8 * Z.of_nat len)) x); [lia | reflexivity].
Qed.

Lemma int_to_bytes_overflow (x : Z) (len : nat) :
  ~ in_width (8 * Z.of_nat len) x -> Py.int_to_bytes x len = Raise OverflowError.
Proof.
  intros H. unfold Py.int_to_bytes, in_width in *.
  destruct (Z.ltb_spec x 0); [reflexivity|].
  destruct (Z.leb_spec (2 ^ (8 * Z.of_nat len)) x); [reflexivity | lia].
Qed.

(** ** Bit-width preservation of masks, XOR, shifts and half-splits *)

Lemma in_width_land_ones (n x : Z) :
  0 <= n -> (in_width n x <-> Z.land x (Z.ones n) = x).
Proof.
  intros Hn. rewrite Z.land_ones by assumption. unfold in_width. split.
  - intros H. apply Z.mod_small; exact H.
  - intros H. rewrite <- H. apply Z.mod_pos_bound. apply Z.pow_pos_nonneg; lia.
Qed.

Lemma in_width_lxor (n a b : Z) :
  0 <= n -> in_width n a -> in_width n b -> in_width n (Z.lxor a b).
Proof.
  intros Hn Ha Hb. apply in_width_land_ones in Ha, Hb; try assumption.
  apply in_width_land_ones; [assumption|].
  apply Z.bits_inj'. intros i Hi.
  apply (f_equal (fun z => Z.testbit z i)) in Ha, Hb.
  rewrite Z.land_spec in Ha, Hb. rewrite Z.land_spec, Z.lxor_spec.
  destruct (Z.testbit (Z.ones n) i).
  - apply andb_true_r.
  - rewrite andb_false_r in *. rewrite <- Ha, <- Hb. reflexivity.
Qed.

Lemma in_width_lor (n a b : Z) :
  0 <= n -> in_width n a -> in_width n b -> in_width n (Z.lor a b).
Proof.
  intros Hn Ha Hb. apply in_width_land_ones in Ha, Hb; try assumption.
  apply in_width_land_ones; [assumption|].
  rewrite Z.land_lor_distr_l, Ha, Hb. reflexivity.
Qed.

Lemma HALF_MASK_ones : HALF_MASK = Z.ones 64.
Proof. reflexivity. Qed.

Lemma mask_in_half (x : Z) : in_width 64 (Z.land x HALF_MASK).
Proof.
  rewrite HALF_MASK_ones, Z.land_ones by lia.
  apply Z.mod_pos_bound. reflexivity.
Qed.

Lemma mask_half_id (x : Z) : in_width 64 x -> Z.land x HALF_MASK = x.
Proof.
  intros H. rewrite HALF_MASK_ones. apply in_width_land_ones; [lia | exact H].
Qed.

Lemma shiftl_half_in_block (l : Z) : in_width 64 l -> in_width 128 (Z.shiftl l 64).
Proof.
  unfold in_width. intros [H0 H1]. rewrite Z.shiftl_mul_pow2 by lia.
  change (2 ^ 128) with (2 ^ 64 * 2 ^ 64). nia.
Qed.

Lemma half_in_block (r : Z) : in_width 64 r -> in_width 128 r.
Proof.
  unfold in_width. intros [H0 H1]. split; [lia|].
  eapply Z.lt_trans; [exact H1 | reflexivity].
Qed.

(** Recombining two halves always gives a 128-bit value. *)
Lemma join_in_block (l r : Z) :
  in_width 128
    (Z.lor (Z.shiftl (Z.land l HALF_MASK) HALF_BLOCK) (Z.land r HALF_MASK)).
Proof.
  apply in_width_lor; [lia | |].
  - apply shiftl_half_in_block, mask_in_half.
  - apply half_in_block, mask_in_half.
Qed.

(** Splitting a recombined pair of halves gives the halves back. *)
Lemma split_join_left (l r : Z) :
  in_width 64 l -> in_width 64 r ->
  Z.land (Z.shiftr (Z.lor (Z.shiftl l 64) r) 64) HALF_MASK = l.
Proof.
  intros Hl Hr. rewrite Z.shiftr_lor, Z.shiftr_shiftl_l by lia.
  replace (64 - 64) with 0 by lia. rewrite Z.shiftl_0_r.
  rewrite (Z.shiftr_div_pow2 r) by lia.
  rewrite (Z.div_small r) by exact Hr.
  rewrite Z.lor_0_r. apply mask_half_id, Hl.
Qed.

Lemma split_join_right (l r : Z) :
  in_width 64 l -> in_width 64 r ->
  Z.land (Z.lor (Z.shiftl l 64) r) HALF_MASK = r.
Proof.
  intros Hl Hr. rewrite Z.land_lor_distr_l.
  rewrite (mask_half_id r Hr).
  rewrite HALF_MASK_ones, Z.land_ones by lia.
  rewrite Z.shiftl_mul_pow2 by lia. rewrite Z.mod_mul by (compute; discriminate).
  apply Z.lor_0_l.
Qed.

(** Recombining the two halves of a 128-bit block gives the block back. *)
Lemma join_split (b : Z) :
  in_width 128 b ->
  Z.lor (Z.shiftl (Z.land (Z.shiftr b 64) HALF_MASK) 64) (Z.land b HALF_MASK) = b.
Proof.
  intros Hb. rewrite HALF_MASK_ones.
  apply Z.bits_inj'. intros n Hn.
  rewrite Z.lor_spec, Z.land_spec, Z.shiftl_spec by assumption.
  destruct (Z.ltb_spec n 64) as [Hlt|Hge].
  - rewrite (Z.testbit_neg_r _ (n - 64)) by lia.
    rewrite Z.testbit_ones_nonneg by lia.
    destruct (Z.ltb_spec n 64); [|lia].
    rewrite andb_true_r. reflexivity.
  - rewrite Z.land_spec, Z.shiftr_spec by lia.
    replace (n - 64 + 64) with n by lia.
    rewrite (Z.testbit_ones_nonneg 64 n) by lia.
    destruct (Z.ltb_spec n 64); [lia|].
    rewrite andb_false_r, orb_false_r.
    destruct (Z.ltb_spec n 128) as [Hlt|Hge'].
    + rewrite Z.testbit_ones_nonneg by lia.
      destruct (Z.ltb_spec (n - 64) 64); [|lia].
      apply andb_true_r.
    + rewrite Z.testbit_ones_nonneg by lia.
      destruct (Z.ltb_spec (n - 64) 64); [lia|].
      rewrite andb_false_r. symmetry.
      destruct Hb as [Hb0 Hb1].
      destruct (Z.eq_dec b 0) as [->|Hnz]; [apply Z.bits_0|].
      apply Z.bits_above_log2; [lia|].
      assert (Z.log2 b < 128) by (apply Z.log2_lt_pow2; lia). lia.
Qed.

Lemma lxor_cancel_r (a f : Z) : Z.lxor (Z.lxor a f) f = a.
Proof. rewrite Z.lxor_assoc, Z.lxor_nilpotent. apply Z.lxor_0_r. Qed.

Lemma masked_lxor_undo (a f : Z) :
  in_width 64 a -> in_width 64 f ->
  Z.land (Z.lxor (Z.land (Z.lxor a f) HALF_MASK) f) HALF_MASK = a.
Proof.
  intros Ha Hf.
  rewrite (mask_half_id (Z.lxor a f)) by (apply in_width_lxor; [lia|assumption..]).
  rewrite lxor_cancel_r. apply mask_half_id, Ha.
Qed.

Lemma range_in_bounds (n c : Z) : In c (Py.range n) -> 0 <= c < n.
Proof.
  unfold Py.range. rewrite in_map_iff. intros [i [<- Hi]].
  apply in_seq in Hi. lia.
Qed.

Lemma range_nonpositive (n : Z) : n <= 0 -> Py.range n = [].
Proof.
  intros H. unfold Py.range. destruct n; try reflexivity. lia.
Qed.

Lemma range_length (n : Z) : List.length (Py.range n) = Z.to_nat n.
Proof. unfold Py.range. rewrite length_map, length_seq. reflexivity. Qed.

(** ** Loops that append one output per input *)

(** A loop whose body appends one output per input and keeps an invariant [Q]
    on the chaining value never raises and yields one output per input. *)
Lemma mode_loop (P Q R : Z -> Prop) (body : list Z * Z -> Z -> result (list Z * Z)) :
  (forall out ch x, P x -> Q ch ->
     exists y ch', body (out, ch) x = Ok (out ++ [y], ch') /\ R y /\ Q ch') ->
  forall xs out ch, Forall P xs -> Q ch ->
    exists ys ch',
      for_each xs body (out, ch) = Ok (out ++ ys, ch')
      /\ Forall R ys /\ List.length ys = List.length xs /\ Q ch'.
Proof.
  intros Hbody xs; induction xs as [|x xs IH]; intros out ch Hxs Hch.
  - exists [], ch. cbn [for_each]. rewrite app_nil_r. auto.
  - inversion Hxs as [|? ? Hx Hxs']; subst.
    destruct (Hbody out ch x Hx Hch) as [y [ch1 [E1 [Hy Hch1]]]].
    destruct (IH (out ++ [y]) ch1 Hxs' Hch1) as [ys [ch' [E [Hys [L Hch']]]]].
    exists (y :: ys), ch'. cbn [for_each]. rewrite E1. cbn [bind]. rewrite E.
    rewrite <- app_assoc. cbn [app List.length].
    split; [reflexivity|]. split; [constructor; assumption|].
    split; [congruence | assumption].
Qed.

Lemma lxor_flip_chain (d c m : Z) :
  Z.lxor (Z.lxor d c) (Z.lxor d (Z.lxor c m)) = m.
Proof.
  apply Z.bits_inj'. intros i _. rewrite !Z.lxor_spec.
  destruct (Z.testbit d i), (Z.testbit c i), (Z.testbit m i); reflexivity.
Qed.

Lemma lxor_flip_stream (c m ks : Z) :
  Z.lxor (Z.lxor c ks) (Z.lxor (Z.lxor c m) ks) = m.
Proof.
  apply Z.bits_inj'. intros i _. rewrite !Z.lxor_spec.
  destruct (Z.testbit ks i), (Z.testbit c i), (Z.testbit m i); reflexivity.
Qed.

(** ** The Feistel engine *)

Section Task3_Properties.

Variable blake2s : list byte -> nat -> list byte.

(** [digest_size=8] yields eight bytes. *)
Hypothesis blake2s_digest_size :
  forall data, List.length (blake2s data 8) = 8%nat.

Local Abbreviation derive_subkeys := (derive_subkeys blake2s).
Local Abbreviation round_function := (round_function blake2s).
Local Abbreviation encrypt_round := (encrypt_round blake2s).
Local Abbreviation decrypt_round := (decrypt_round blake2s).
Local Abbreviation encrypt_block := (encrypt_block blake2s).
Local Abbreviation decrypt_block := (decrypt_block blake2s).
Local Abbreviation cbc_encrypt_body := (cbc_encrypt_body blake2s).
Local Abbreviation cbc_decrypt_body := (cbc_decrypt_body blake2s).
Local Abbreviation cfb_encrypt_body := (cfb_encrypt_body blake2s).
Local Abbreviation cfb_decrypt_body := (cfb_decrypt_body blake2s).
Local Abbreviation cbc_encrypt := (cbc_encrypt blake2s).
Local Abbreviation cbc_decrypt := (cbc_decrypt blake2s).
Local Abbreviation cfb_encrypt := (cfb_encrypt blake2s).
Local Abbreviation cfb_decrypt := (cfb_decrypt blake2s).
Local Abbreviation cfb_decrypt_loop := (cfb_decrypt_loop blake2s).
Local Abbreviation cfb_decrypt_traced := (cfb_decrypt_traced blake2s).
Local Abbreviation cfb_decrypt_spec := (cfb_decrypt_spec blake2s).
Local Abbreviation analyze_cbc := (analyze_cbc blake2s).
Local Abbreviation analyze_cfb := (analyze_cfb blake2s).

Lemma digest_in_half (data : list byte) :
  in_width 64 (Py.int_from_bytes (blake2s data 8)).
Proof.
  pose proof (int_from_bytes_range (blake2s data 8)) as H.
  rewrite blake2s_digest_size in H. exact H.
Qed.

Lemma derive_subkeys_loop (seed : list byte) (cs : list Z) (acc : list Z) :
  Forall (in_width 16) cs -> Forall (in_width 64) acc ->
  exists subkeys,
    for_each cs
      (fun subkeys counter =>
         counter_bytes <- Py.int_to_bytes counter 2 ;;
         Ok (subkeys ++ [Py.int_from_bytes (blake2s (seed ++ counter_bytes) 8)]))
      acc = Ok subkeys
    /\ Forall (in_width 64) subkeys
    /\ List.length subkeys = (List.length acc + List.length cs)%nat.
Proof.
  intros Hcs; revert acc; induction Hcs as [|c cs Hc Hcs IH]; intros acc Hacc.
  - exists acc. simpl. repeat split; [assumption | lia].
  - cbn [for_each]. rewrite (int_to_bytes_ok c 2) by exact Hc. cbn [bind].
    destruct (IH (acc ++ [Py.int_from_bytes
                            (blake2s (seed ++ Py.be_bytes 2 c) 8)]))
      as [sks [E [F L]]].
    + apply Forall_app; split; [assumption|].
      constructor; [apply digest_in_half | constructor].
    + exists sks. repeat split; [exact E | exact F |].
      rewrite L, length_app. simpl. lia.
Qed.

Lemma derive_subkeys_ok (key rounds : Z) :
  in_width 128 key -> rounds <= 65536 ->
  exists subkeys,
    derive_subkeys key rounds = Ok subkeys
    /\ Forall (in_width 64) subkeys
    /\ List.length subkeys = Z.to_nat rounds.
Proof.
  intros Hk Hr. unfold_schedule.
  rewrite (int_to_bytes_ok key 16) by exact Hk. cbn [bind].
  destruct (derive_subkeys_loop (Py.be_bytes 16 key) (Py.range rounds) [])
    as [sks [E [F L]]].
  - apply Forall_forall. intros c Hc. apply range_in_bounds in Hc.
    unfold in_width. change (2 ^ 16) with 65536. lia.
  - constructor.
  - exists sks. repeat split; [exact E | exact F |].
    rewrite L, range_length. reflexivity.
Qed.

Lemma round_function_ok (half_block subkey : Z) :
  in_width 64 half_block -> in_width 64 subkey ->
  exists f, round_function half_block subkey = Ok f /\ in_width 64 f.
Proof.
  intros Hh Hs. unfold_round.
  rewrite (int_to_bytes_ok half_block 8), (int_to_bytes_ok subkey 8)
    by assumption.
  cbn [bind]. eexists. split; [reflexivity | apply digest_in_half].
Qed.

(** One forward round keeps both halves in range and is undone by one
    backward round under the same subkey. *)
Lemma encrypt_round_undo (l r k : Z) :
  in_width 64 l -> in_width 64 r -> in_width 64 k ->
  exists l' r',
    encrypt_round (l, r) k = Ok (l', r')
    /\ in_width 64 l' /\ in_width 64 r'
    /\ decrypt_round (l', r') k = Ok (l, r).
Proof.
  intros Hl Hr Hk.
  destruct (round_function_ok r k Hr Hk) as [f [Ef Hf]].
  exists r, (Z.land (Z.lxor l f) HALF_MASK).
  unfold_round. rewrite Ef. cbn [bind].
  split; [reflexivity|]. split; [exact Hr|]. split; [apply mask_in_half|].
  rewrite masked_lxor_undo by assumption. reflexivity.
Qed.

Lemma decrypt_round_undo (l r k : Z) :
  in_width 64 l -> in_width 64 r -> in_width 64 k ->
  exists l' r',
    decrypt_round (l, r) k = Ok (l', r')
    /\ in_width 64 l' /\ in_width 64 r'
    /\ encrypt_round (l', r') k = Ok (l, r).
Proof.
  intros Hl Hr Hk.
  destruct (round_function_ok l k Hl Hk) as [f [Ef Hf]].
  exists (Z.land (Z.lxor r f) HALF_MASK), l.
  unfold_round. rewrite Ef. cbn [bind].
  split; [reflexivity|]. split; [apply mask_in_half|]. split; [exact Hl|].
  rewrite masked_lxor_undo by assumption. reflexivity.
Qed.

(** Running the rounds over a schedule and then the opposite rounds over the
    reversed schedule is the identity on pairs of halves. *)
Lemma rounds_undo (fwd bwd : Z * Z -> Z -> result (Z * Z)) :
  (forall l r k, in_width 64 l -> in_width 64 r -> in_width 64 k ->
     exists l' r', fwd (l, r) k = Ok (l', r')
       /\ in_width 64 l' /\ in_width 64 r' /\ bwd (l', r') k = Ok (l, r)) ->
  forall ks l r,
    Forall (in_width 64) ks -> in_width 64 l -> in_width 64 r ->
    exists l' r',
      for_each ks fwd (l, r) = Ok (l', r')
      /\ in_width 64 l' /\ in_width 64 r'
      /\ for_each (rev ks) bwd (l', r') = Ok (l, r).
Proof.
  intros Hstep ks; induction ks as [|k ks IH]; intros l r Hks Hl Hr.
  - exists l, r. simpl. auto.
  - inversion Hks as [|? ? Hk Hks']; subst.
    destruct (Hstep l r k Hl Hr Hk) as [l1 [r1 [E1 [Hl1 [Hr1 B1]]]]].
    destruct (IH l1 r1 Hks' Hl1 Hr1) as [l' [r' [E [Hl' [Hr' B]]]]].
    exists l', r'. cbn [for_each rev]. rewrite E1. cbn [bind].
    split; [exact E|]. split; [exact Hl'|]. split; [exact Hr'|].
    rewrite for_each_app, B. cbn [bind for_each]. rewrite B1. reflexivity.
Qed.

Lemma encrypt_block_ok (block key : Z) :
  in_width 128 key ->
  exists c, encrypt_block block key = Ok c /\ in_width 128 c.
Proof.
  intros Hk. unfold_block.
  destruct (derive_subkeys_ok key ROUNDS Hk) as [sks [E [F _]]];
    [unfold ROUNDS; lia|].
  rewrite E. cbn [bind].
  destruct (rounds_undo encrypt_round decrypt_round encrypt_round_undo sks
              (Z.land (Z.shiftr block HALF_BLOCK) HALF_MASK)
              (Z.land block HALF_MASK) F (mask_in_half _) (mask_in_half _))
    as [l' [r' [El _]]].
  rewrite El. cbn [bind]. eexists. split; [reflexivity | apply join_in_block].
Qed.

Lemma decrypt_block_ok (block key : Z) :
  in_width 128 key ->
  exists p, decrypt_block block key = Ok p /\ in_width 128 p.
Proof.
  intros Hk. unfold_block.
  destruct (derive_subkeys_ok key ROUNDS Hk) as [sks [E [F _]]];
    [unfold ROUNDS; lia|].
  rewrite E. cbn [bind].
  destruct (rounds_undo decrypt_round encrypt_round decrypt_round_undo (rev sks)
              (Z.land (Z.shiftr block HALF_BLOCK) HALF_MASK)
              (Z.land block HALF_MASK))
    as [l' [r' [El _]]];
    [apply Forall_rev, F | apply mask_in_half | apply mask_in_half |].
  rewrite El. cbn [bind]. eexists. split; [reflexivity | apply join_in_block].
Qed.

Lemma decrypt_encrypt_block (b k : Z) :
  in_width 128 k -> in_width 128 b ->
  (c <- encrypt_block b k ;; decrypt_block c k) = Ok b.
Proof.
  intros Hk Hb. unfold_block.
  destruct (derive_subkeys_ok k ROUNDS Hk) as [sks [E [F _]]];
    [unfold ROUNDS; lia|].
  rewrite E. cbn [bind].
  destruct (rounds_undo encrypt_round decrypt_round encrypt_round_undo sks
              (Z.land (Z.shiftr b HALF_BLOCK) HALF_MASK)
              (Z.land b HALF_MASK) F (mask_in_half _) (mask_in_half _))
    as [l' [r' [El [Hl' [Hr' Bk]]]]].
  change HALF_BLOCK with 64 in *.
  rewrite El. cbn [bind].
  rewrite (mask_half_id l' Hl'), (mask_half_id r' Hr').
  rewrite (split_join_left l' r' Hl' Hr'), (split_join_right l' r' Hl' Hr').
  rewrite Bk. cbn [bind].
  rewrite (mask_half_id (Z.land (Z.shiftr b 64) HALF_MASK)) by apply mask_in_half.
  rewrite (mask_half_id (Z.land b HALF_MASK)) by apply mask_in_half.
  f_equal. apply join_split, Hb.
Qed.

Lemma encrypt_decrypt_block (b k : Z) :
  in_width 128 k -> in_width 128 b ->
  (p <- decrypt_block b k ;; encrypt_block p k) = Ok b.
Proof.
  intros Hk Hb. unfold_block.
  destruct (derive_subkeys_ok k ROUNDS Hk) as [sks [E [F _]]];
    [unfold ROUNDS; lia|].
  rewrite E. cbn [bind].
  destruct (rounds_undo decrypt_round encrypt_round decrypt_round_undo (rev sks)
              (Z.land (Z.shiftr b HALF_BLOCK) HALF_MASK)
              (Z.land b HALF_MASK))
    as [l' [r' [El [Hl' [Hr' Bk]]]]];
    [apply Forall_rev, F | apply mask_in_half | apply mask_in_half |].
  rewrite rev_involutive in Bk.
  change HALF_BLOCK with 64 in *.
  rewrite El. cbn [bind].
  rewrite (mask_half_id l' Hl'), (mask_half_id r' Hr').
  rewrite (split_join_left l' r' Hl' Hr'), (split_join_right l' r' Hl' Hr').
  rewrite Bk. cbn [bind].
  rewrite (mask_half_id (Z.land (Z.shiftr b 64) HALF_MASK)) by apply mask_in_half.
  rewrite (mask_half_id (Z.land b HALF_MASK)) by apply mask_in_half.
  f_equal. apply join_split, Hb.
Qed.

(** C1: for every 128-bit key [k] and every block [b] with [0 <= b < 2^128],
    [decrypt_block(encrypt_block(b, k), k) == b], and also
    [encrypt_block(decrypt_block(b, k), k) == b]: the two block primitives
    return without raising and are mutual inverses on 128-bit blocks. *)
Theorem block_round_trip (b k : Z) :
  0 <= k < 2 ^ 128 -> 0 <= b < 2 ^ 128 ->
  (c <- encrypt_block b k ;; decrypt_block c k) = Ok b
  /\ (p <- decrypt_block b k ;; encrypt_block p k) = Ok b.
Proof.
  intros Hk Hb. split.
  - apply decrypt_encrypt_block; assumption.
  - apply encrypt_decrypt_block; assumption.
Qed.

(** ** The mode wrappers *)

Lemma encrypt_block_invertible (b k : Z) :
  in_width 128 k -> in_width 128 b ->
  exists c, encrypt_block b k = Ok c /\ in_width 128 c /\ decrypt_block c k = Ok b.
Proof.
  intros Hk Hb. destruct (encrypt_block_ok b k Hk) as [c [Ec Hc]].
  pose proof (decrypt_encrypt_block b k Hk Hb) as H.
  rewrite Ec in H. cbn [bind] in H. exists c. auto.
Qed.

Section Bodies.

Variable key : Z.
Hypothesis key_width : in_width 128 key.

Lemma cbc_encrypt_body_ok (out : list Z) (prev block : Z) :
  exists c, encrypt_block (Z.lxor block prev) key = Ok c /\ in_width 128 c
    /\ cbc_encrypt_body key (out, prev) block = Ok (out ++ [c], c).
Proof.
  destruct (encrypt_block_ok (Z.lxor block prev) key key_width) as [c [E H]].
  exists c. unfold_body. rewrite E. auto.
Qed.

Lemma cbc_decrypt_body_ok (out : list Z) (prev block : Z) :
  exists d, decrypt_block block key = Ok d /\ in_width 128 d
    /\ cbc_decrypt_body key (out, prev) block = Ok (out ++ [Z.lxor d prev], block).
Proof.
  destruct (decrypt_block_ok block key key_width) as [d [E H]].
  exists d. unfold_body. rewrite E. auto.
Qed.

Lemma cfb_encrypt_body_ok (out : list Z) (feedback block : Z) :
  exists ks, encrypt_block feedback key = Ok ks /\ in_width 128 ks
    /\ cfb_encrypt_body key (out, feedback) block
       = Ok (out ++ [Z.lxor block ks], Z.lxor block ks).
Proof.
  destruct (encrypt_block_ok feedback key key_width) as [ks [E H]].
  exists ks. unfold_body. rewrite E. auto.
Qed.

Lemma cfb_decrypt_body_ok (out : list Z) (feedback block : Z) :
  exists ks, encrypt_block feedback key = Ok ks /\ in_width 128 ks
    /\ cfb_decrypt_body key (out, feedback) block
       = Ok (out ++ [Z.lxor block ks], block).
Proof.
  destruct (encrypt_block_ok feedback key key_width) as [ks [E H]].
  exists ks. unfold_body. rewrite E. auto.
Qed.

(** With a 128-bit key no mode loop raises, whatever the blocks are. *)
Lemma mode_loops_total (body : list Z * Z -> Z -> result (list Z * Z)) :
  body = cbc_encrypt_body key \/ body = cbc_decrypt_body key
  \/ body = cfb_encrypt_body key \/ body = cfb_decrypt_body key ->
  forall xs out ch,
    exists ys ch', for_each xs body (out, ch) = Ok (out ++ ys, ch')
                   /\ List.length ys = List.length xs.
Proof.
  intros Hb xs out ch.
  destruct (mode_loop (fun _ => True) (fun _ => True) (fun _ => True) body)
    with (xs := xs) (out := out) (ch := ch) as [ys [ch' [E [_ [L _]]]]].
  - intros o c x _ _.
    destruct Hb as [ -> | [ -> | [ -> | -> ] ] ].
    + destruct (cbc_encrypt_body_ok o c x) as [y [_ [_ E]]]; eauto.
    + destruct (cbc_decrypt_body_ok o c x) as [y [_ [_ E]]]; eauto.
    + destruct (cfb_encrypt_body_ok o c x) as [y [_ [_ E]]]; eauto.
    + destruct (cfb_decrypt_body_ok o c x) as [y [_ [_ E]]]; eauto.
  - apply Forall_forall. auto.
  - exact I.
  - eauto.
Qed.

(** Width of what each loop appends, for 128-bit inputs. *)
Lemma cbc_encrypt_loop_width (xs out : list Z) (prev : Z) :
  exists ys ch', for_each xs (cbc_encrypt_body key) (out, prev) = Ok (out ++ ys, ch')
                 /\ Forall (in_width 128) ys.
Proof.
  destruct (mode_loop (fun _ => True) (fun _ => True) (in_width 128)
              (cbc_encrypt_body key))
    with (xs := xs) (out := out) (ch := prev) as [ys [ch' [E [W _]]]].
  - intros o c x _ _.
    destruct (cbc_encrypt_body_ok o c x) as [y [_ [Hy E]]]; eauto.
  - apply Forall_forall. auto.
  - exact I.
  - eauto.
Qed.

Lemma cbc_decrypt_loop_width (xs out : list Z) (prev : Z) :
  Forall (in_width 128) xs -> in_width 128 prev ->
  exists ys ch', for_each xs (cbc_decrypt_body key) (out, prev) = Ok (out ++ ys, ch')
                 /\ Forall (in_width 128) ys.
Proof.
  intros Hxs Hp.
  destruct (mode_loop (in_width 128) (in_width 128) (in_width 128)
              (cbc_decrypt_body key))
    with (xs := xs) (out := out) (ch := prev) as [ys [ch' [E [W _]]]];
    [ | assumption | assumption | eauto].
  intros o c x Hx Hc.
  destruct (cbc_decrypt_body_ok o c x) as [d [_ [Hd E]]].
  exists (Z.lxor d c), x. split; [exact E|]. split; [|exact Hx].
  apply in_width_lxor; [lia | assumption..].
Qed.

Lemma cfb_encrypt_loop_width (xs out : list Z) (feedback : Z) :
  Forall (in_width 128) xs ->
  exists ys ch', for_each xs (cfb_encrypt_body key) (out, feedback)
                 = Ok (out ++ ys, ch')
                 /\ Forall (in_width 128) ys.
Proof.
  intros Hxs.
  destruct (mode_loop (in_width 128) (fun _ => True) (in_width 128)
              (cfb_encrypt_body key))
    with (xs := xs) (out := out) (ch := feedback) as [ys [ch' [E [W _]]]];
    [ | assumption | exact I | eauto].
  intros o c x Hx _.
  destruct (cfb_encrypt_body_ok o c x) as [ks [_ [Hks E]]].
  exists (Z.lxor x ks), (Z.lxor x ks). split; [exact E|]. split; [|exact I].
  apply in_width_lxor; [lia | assumption..].
Qed.

Lemma cfb_decrypt_loop_width (xs out : list Z) (feedback : Z) :
  Forall (in_width 128) xs ->
  exists ys ch', for_each xs (cfb_decrypt_body key) (out, feedback)
                 = Ok (out ++ ys, ch')
                 /\ Forall (in_width 128) ys.
Proof.
  intros Hxs.
  destruct (mode_loop (in_width 128) (fun _ => True) (in_width 128)
              (cfb_decrypt_body key))
    with (xs := xs) (out := out) (ch := feedback) as [ys [ch' [E [W _]]]];
    [ | assumption | exact I | eauto].
  intros o c x Hx _.
  destruct (cfb_decrypt_body_ok o c x) as [ks [_ [Hks E]]].
  exists (Z.lxor x ks), x. split; [exact E|]. split; [|exact I].
  apply in_width_lxor; [lia | assumption..].
Qed.

(** CBC: the decrypt loop run over what the encrypt loop appended, from
    the same chaining value, appends the plaintext blocks. *)
Lemma cbc_loops_round_trip (blocks : list Z) :
  Forall (in_width 128) blocks ->
  forall prev out_c out_p, in_width 128 prev ->
    exists cs last,
      for_each blocks (cbc_encrypt_body key) (out_c, prev) = Ok (out_c ++ cs, last)
      /\ for_each cs (cbc_decrypt_body key) (out_p, prev)
         = Ok (out_p ++ blocks, last).
Proof.
  induction 1 as [|block blocks Hb Hbs IH]; intros prev out_c out_p Hp.
  - exists [], prev. cbn [for_each]. rewrite !app_nil_r. auto.
  - assert (Hx : in_width 128 (Z.lxor block prev))
      by (apply in_width_lxor; [lia | assumption..]).
    destruct (encrypt_block_invertible _ key key_width Hx) as [c [Ec [Hc Dc]]].
    destruct (IH c (out_c ++ [c]) (out_p ++ [block]) Hc) as [cs [last [E D]]].
    exists (c :: cs), last. cbn [for_each]. unfold_body.
    rewrite Ec, Dc. cbn [bind]. rewrite lxor_cancel_r.
    unfold_body. fold (cbc_encrypt_body key) (cbc_decrypt_body key).
    rewrite <- !app_assoc in *. cbn [app] in *. auto.
Qed.

(** CFB: likewise, for arbitrary integers as blocks and IV. *)
Lemma cfb_loops_round_trip (blocks : list Z) :
  forall feedback out_c out_p,
    exists cs last,
      for_each blocks (cfb_encrypt_body key) (out_c, feedback)
      = Ok (out_c ++ cs, last)
      /\ for_each cs (cfb_decrypt_body key) (out_p, feedback)
         = Ok (out_p ++ blocks, last).
Proof.
  induction blocks as [|block blocks IH]; intros feedback out_c out_p.
  - exists [], feedback. cbn [for_each]. rewrite !app_nil_r. auto.
  - destruct (encrypt_block_ok feedback key key_width) as [ks [Eks _]].
    destruct (IH (Z.lxor block ks) (out_c ++ [Z.lxor block ks])
                (out_p ++ [block])) as [cs [last [E D]]].
    exists (Z.lxor block ks :: cs), last. cbn [for_each]. unfold_body.
    rewrite Eks. cbn [bind]. rewrite lxor_cancel_r.
    fold (cfb_encrypt_body key) (cfb_decrypt_body key).
    rewrite <- !app_assoc in *. cbn [app] in *. auto.
Qed.

Lemma cbc_encrypt_total (blocks : list Z) (iv : Z) :
  exists cs, cbc_encrypt blocks key iv = Ok cs
             /\ List.length cs = List.length blocks.
Proof.
  destruct (mode_loops_total (cbc_encrypt_body key)) with (xs := blocks)
    (out := @nil Z) (ch := iv) as [ys [ch' [E L]]]; [auto|].
  exists ys. unfold_mode. fold (cbc_encrypt_body key). rewrite E. auto.
Qed.

Lemma cbc_decrypt_total (blocks : list Z) (iv : Z) :
  exists ps, cbc_decrypt blocks key iv = Ok ps
             /\ List.length ps = List.length blocks.
Proof.
  destruct (mode_loops_total (cbc_decrypt_body key)) with (xs := blocks)
    (out := @nil Z) (ch := iv) as [ys [ch' [E L]]]; [auto|].
  exists ys. unfold_mode. fold (cbc_decrypt_body key). rewrite E. auto.
Qed.

Lemma cfb_encrypt_total (blocks : list Z) (iv : Z) :
  exists cs, cfb_encrypt blocks key iv = Ok cs
             /\ List.length cs = List.length blocks.
Proof.
  destruct (mode_loops_total (cfb_encrypt_body key)) with (xs := blocks)
    (out := @nil Z) (ch := iv) as [ys [ch' [E L]]]; [auto|].
  exists ys. unfold_mode. fold (cfb_encrypt_body key). rewrite E. auto.
Qed.

Lemma cfb_decrypt_total (blocks : list Z) (iv : Z) :
  exists ps, cfb_decrypt blocks key iv = Ok ps
             /\ List.length ps = List.length blocks.
Proof.
  destruct (mode_loops_total (cfb_decrypt_body key)) with (xs := blocks)
    (out := @nil Z) (ch := iv) as [ys [ch' [E L]]]; [auto|].
  exists ys. unfold_mode. fold (cfb_decrypt_body key). rewrite E. auto.
Qed.

Lemma cbc_round_trip (blocks : list Z) (iv : Z) :
  Forall (in_width 128) blocks -> in_width 128 iv ->
  exists cs, cbc_encrypt blocks key iv = Ok cs
             /\ cbc_decrypt cs key iv = Ok blocks.
Proof.
  intros Hb Hiv.
  destruct (cbc_loops_round_trip blocks Hb iv [] [] Hiv) as [cs [last [E D]]].
  exists cs. unfold_mode. fold (cbc_encrypt_body key) (cbc_decrypt_body key).
  rewrite E, D. auto.
Qed.

Lemma cfb_round_trip (blocks : list Z) (iv : Z) :
  exists cs, cfb_encrypt blocks key iv = Ok cs
             /\ cfb_decrypt cs key iv = Ok blocks.
Proof.
  destruct (cfb_loops_round_trip blocks iv [] []) as [cs [last [E D]]].
  exists cs. unfold_mode. fold (cfb_encrypt_body key) (cfb_decrypt_body key).
  rewrite E, D. auto.
Qed.

(** Decrypting two blocks, spelled out. *)
Lemma cbc_decrypt_pair (x0 x1 iv : Z) :
  exists d0 d1,
    decrypt_block x0 key = Ok d0 /\ decrypt_block x1 key = Ok d1
    /\ cbc_decrypt [x0; x1] key iv = Ok [Z.lxor d0 iv; Z.lxor d1 x0].
Proof.
  destruct (decrypt_block_ok x0 key key_width) as [d0 [E0 _]].
  destruct (decrypt_block_ok x1 key key_width) as [d1 [E1 _]].
  exists d0, d1. unfold_mode. cbn [for_each]. unfold_body.
  rewrite E0. cbn [bind app]. rewrite E1. auto.
Qed.

Lemma cfb_decrypt_pair (x0 x1 iv : Z) :
  exists k0 k1,
    encrypt_block iv key = Ok k0 /\ encrypt_block x0 key = Ok k1
    /\ cfb_decrypt [x0; x1] key iv = Ok [Z.lxor x0 k0; Z.lxor x1 k1].
Proof.
  destruct (encrypt_block_ok iv key key_width) as [k0 [E0 _]].
  destruct (encrypt_block_ok x0 key key_width) as [k1 [E1 _]].
  exists k0, k1. unfold_mode. cbn [for_each]. unfold_body.
  rewrite E0. cbn [bind app]. rewrite E1. auto.
Qed.

(** The first two outputs of a mode do not depend on the blocks after the
    second one. *)
Lemma mode_prefix (body : list Z * Z -> Z -> result (list Z * Z)) :
  body = cbc_encrypt_body key \/ body = cbc_decrypt_body key
  \/ body = cfb_encrypt_body key \/ body = cfb_decrypt_body key ->
  forall x0 x1 rest iv,
    exists y0 y1 ys,
      ('(out, _) <- for_each [x0; x1] body ([], iv) ;; Ok out) = Ok [y0; y1]
      /\ ('(out, _) <- for_each (x0 :: x1 :: rest) body ([], iv) ;; Ok out)
         = Ok (y0 :: y1 :: ys).
Proof.
  intros Hb x0 x1 rest iv.
  destruct (mode_loops_total body Hb [x0; x1] [] iv) as [ys2 [ch [E2 L2]]].
  destruct ys2 as [|y0 [|y1 [|? ?]]]; try discriminate L2.
  destruct (mode_loops_total body Hb rest [y0; y1] ch) as [ys [ch' [E _]]].
  exists y0, y1, ys.
  change (x0 :: x1 :: rest) with ([x0; x1] ++ rest).
  rewrite for_each_app, E2. cbn [bind app] in *. rewrite E. auto.
Qed.

End Bodies.

(** What the analyzers compute once the clean ciphertext and its decryption
    are known: only the first two entries of each are ever read. *)
Lemma analyze_cbc_from (key iv : Z) (blocks : list Z) (c0 c1 a0 a1 : Z)
      (cs ps : list Z) :
  cbc_encrypt blocks key iv = Ok (c0 :: c1 :: cs) ->
  cbc_decrypt (c0 :: c1 :: cs) key iv = Ok (a0 :: a1 :: ps) ->
  analyze_cbc key iv blocks =
    (corrupted_plain <-
       cbc_decrypt [Z.lxor c0 (Z.shiftl 1 BIT_TO_FLIP); c1] key iv ;;
     b0 <- Py.getitem corrupted_plain 0 ;;
     b1 <- Py.getitem corrupted_plain 1 ;;
     Ok (mkModeReport "CBC mode" BIT_TO_FLIP (bit_diff a0 b0) (bit_diff a1 b1)
           ("flip sits inside Dk(C1), so diffusion destroys essentially the whole block."
            ++ newline ++
            "only the XOR with C1 handles P2, so a single bit error leaks straight through."
           )%string)).
Proof.
  intros E D. unfold_analyze. rewrite E. cbn [bind]. rewrite D.
  cbn [bind Py.getitem nth_error].
  change (flip_bit c0 BIT_TO_FLIP) with (Ok (Z.lxor c0 (Z.shiftl 1 BIT_TO_FLIP))).
  cbn [bind].
  destruct (cbc_decrypt [Z.lxor c0 (Z.shiftl 1 BIT_TO_FLIP); c1] key iv)
    as [corrupted|e]; [|reflexivity].
  cbn [bind]. destruct (Py.getitem corrupted 0); [|reflexivity].
  cbn [bind]. destruct (Py.getitem corrupted 1); reflexivity.
Qed.

Lemma analyze_cfb_from (key iv : Z) (blocks : list Z) (c0 c1 a0 a1 : Z)
      (cs ps : list Z) :
  cfb_encrypt blocks key iv = Ok (c0 :: c1 :: cs) ->
  cfb_decrypt (c0 :: c1 :: cs) key iv = Ok (a0 :: a1 :: ps) ->
  analyze_cfb key iv blocks =
    (corrupted_plain <-
       cfb_decrypt [Z.lxor c0 (Z.shiftl 1 BIT_TO_FLIP); c1] key iv ;;
     b0 <- Py.getitem corrupted_plain 0 ;;
     b1 <- Py.getitem corrupted_plain 1 ;;
     Ok (mkModeReport "CFB mode" BIT_TO_FLIP (bit_diff a0 b0) (bit_diff a1 b1)
           ("C1 feeds P1' via XOR only, so the corruption remains confined to that bit."
            ++ newline ++
            "C1 is the feedback input to Ek for block 2, so the keystream changes everywhere."
           )%string)).
Proof.
  intros E D. unfold_analyze. rewrite E. cbn [bind]. rewrite D.
  cbn [bind Py.getitem nth_error].
  change (flip_bit c0 BIT_TO_FLIP) with (Ok (Z.lxor c0 (Z.shiftl 1 BIT_TO_FLIP))).
  cbn [bind].
  destruct (cfb_decrypt [Z.lxor c0 (Z.shiftl 1 BIT_TO_FLIP); c1] key iv)
    as [corrupted|e]; [|reflexivity].
  cbn [bind]. destruct (Py.getitem corrupted 0); [|reflexivity].
  cbn [bind]. destruct (Py.getitem corrupted 1); reflexivity.
Qed.

(** C2: for every 128-bit key and IV and every non-empty sequence of blocks,
    each below 2^128, [cbc_decrypt(cbc_encrypt(blocks, key, iv), key, iv)]
    and [cfb_decrypt(cfb_encrypt(blocks, key, iv), key, iv)] both return
    [blocks]. *)
Theorem mode_round_trip (blocks : list Z) (key iv : Z) :
  0 <= key < 2 ^ 128 -> 0 <= iv < 2 ^ 128 ->
  blocks <> [] -> Forall (fun b => 0 <= b < 2 ^ 128) blocks ->
  (cs <- cbc_encrypt blocks key iv ;; cbc_decrypt cs key iv) = Ok blocks
  /\ (cs <- cfb_encrypt blocks key iv ;; cfb_decrypt cs key iv) = Ok blocks.
Proof.
  intros Hk Hiv _ Hb. split.
  - destruct (cbc_round_trip key Hk blocks iv Hb Hiv) as [cs [E D]].
    rewrite E. exact D.
  - destruct (cfb_round_trip key Hk blocks iv) as [cs [E D]].
    rewrite E. exact D.
Qed.

(** C3: for every 128-bit key, IV and two-block plaintext, [analyze_cbc]
    returns a report with [p2_diff == 1]; the second block decrypted from the
    corrupted ciphertext differs from the second plaintext block at bit 17
    and nowhere else. *)
Theorem analyze_cbc_second_block (key iv p1 p2 : Z) :
  0 <= key < 2 ^ 128 -> 0 <= iv < 2 ^ 128 ->
  0 <= p1 < 2 ^ 128 -> 0 <= p2 < 2 ^ 128 ->
  exists c0 c1 b0 b1 report,
    cbc_encrypt [p1; p2] key iv = Ok [c0; c1]
    /\ cbc_decrypt [c0; c1] key iv = Ok [p1; p2]
    /\ cbc_decrypt [Z.lxor c0 (Z.shiftl 1 BIT_TO_FLIP); c1] key iv = Ok [b0; b1]
    /\ Z.lxor p2 b1 = Z.shiftl 1 BIT_TO_FLIP
    /\ analyze_cbc key iv [p1; p2] = Ok report
    /\ p2_diff report = 1
    /\ p1_diff report = bit_diff p1 b0
    /\ bit_flip_index report = 17.
Proof.
  intros Hk Hiv H1 H2.
  destruct (cbc_round_trip key Hk [p1; p2] iv) as [cs [E D]];
    [constructor; [exact H1 | constructor; [exact H2 | constructor]]
    | assumption |].
  destruct (cbc_encrypt_total key Hk [p1; p2] iv) as [cs' [E' L]].
  rewrite E in E'. injection E' as <-.
  destruct cs as [|c0 [|c1 [|? ?]]]; try discriminate L.
  destruct (cbc_decrypt_pair key Hk c0 c1 iv) as [d0 [d1 [D0 [D1 Dclean]]]].
  destruct (cbc_decrypt_pair key Hk (Z.lxor c0 (Z.shiftl 1 BIT_TO_FLIP)) c1 iv)
    as [e0 [e1 [F0 [F1 Dcorr]]]].
  rewrite D1 in F1. injection F1 as <-.
  rewrite D in Dclean. injection Dclean as Hp1 Hp2.
  eexists c0, c1, _, _, _.
  split; [exact E|]. split; [exact D|]. split; [exact Dcorr|].
  split; [rewrite Hp2; apply lxor_flip_chain|].
  rewrite (analyze_cbc_from key iv [p1; p2] c0 c1 _ _ [] [] E D), Dcorr.
  cbn [bind Py.getitem nth_error p2_diff p1_diff bit_flip_index].
  split; [reflexivity|]. unfold bit_diff.
  rewrite Hp2 at 1. rewrite lxor_flip_chain. auto.
Qed.

(** C4: for every 128-bit key, IV and two-block plaintext, [analyze_cfb]
    returns a report with [p1_diff == 1]; the first block decrypted from the
    corrupted ciphertext differs from the first plaintext block at bit 17
    and nowhere else. *)
Theorem analyze_cfb_first_block (key iv p1 p2 : Z) :
  0 <= key < 2 ^ 128 -> 0 <= iv < 2 ^ 128 ->
  0 <= p1 < 2 ^ 128 -> 0 <= p2 < 2 ^ 128 ->
  exists c0 c1 b0 b1 report,
    cfb_encrypt [p1; p2] key iv = Ok [c0; c1]
    /\ cfb_decrypt [c0; c1] key iv = Ok [p1; p2]
    /\ cfb_decrypt [Z.lxor c0 (Z.shiftl 1 BIT_TO_FLIP); c1] key iv = Ok [b0; b1]
    /\ Z.lxor p1 b0 = Z.shiftl 1 BIT_TO_FLIP
    /\ analyze_cfb key iv [p1; p2] = Ok report
    /\ p1_diff report = 1
    /\ p2_diff report = bit_diff p2 b1
    /\ bit_flip_index report = 17.
Proof.
  intros Hk Hiv H1 H2.
  destruct (cfb_round_trip key Hk [p1; p2] iv) as [cs [E D]].
  destruct (cfb_encrypt_total key Hk [p1; p2] iv) as [cs' [E' L]].
  rewrite E in E'. injection E' as <-.
  destruct cs as [|c0 [|c1 [|? ?]]]; try discriminate L.
  destruct (cfb_decrypt_pair key Hk c0 c1 iv) as [k0 [k1 [K0 [K1 Dclean]]]].
  destruct (cfb_decrypt_pair key Hk (Z.lxor c0 (Z.shiftl 1 BIT_TO_FLIP)) c1 iv)
    as [j0 [j1 [J0 [J1 Dcorr]]]].
  rewrite K0 in J0. injection J0 as <-.
  rewrite D in Dclean. injection Dclean as Hp1 Hp2.
  eexists c0, c1, _, _, _.
  split; [exact E|]. split; [exact D|]. split; [exact Dcorr|].
  split; [rewrite Hp1; apply lxor_flip_stream|].
  rewrite (analyze_cfb_from key iv [p1; p2] c0 c1 _ _ [] [] E D), Dcorr.
  cbn [bind Py.getitem nth_error p2_diff p1_diff bit_flip_index].
  split; [reflexivity|]. unfold bit_diff.
  rewrite Hp1 at 1. rewrite lxor_flip_stream. auto.
Qed.

(** The recording loop computes what the plain loop computes. *)
Lemma cfb_decrypt_loop_value (blocks : list Z) (key : Z) :
  forall st calls,
    snd (cfb_decrypt_loop blocks key st calls)
    = for_each blocks (cfb_decrypt_body key) st.
Proof.
  induction blocks as [|block rest IH]; intros [plaintext feedback] calls.
  - reflexivity.
  - step_traced. unfold_body.
    destruct (encrypt_block feedback key) as [ks|e]; cbn [bind snd].
    + apply IH.
    + reflexivity.
Qed.

Lemma cfb_decrypt_loop_calls (blocks : list Z) (key : Z) :
  forall st calls,
    forallb is_encrypt_call calls = true ->
    forallb is_encrypt_call (fst (cfb_decrypt_loop blocks key st calls)) = true.
Proof.
  induction blocks as [|block rest IH]; intros [plaintext feedback] calls H.
  - exact H.
  - step_traced.
    assert (H' : forallb is_encrypt_call (calls ++ [EncryptCall feedback key]) = true)
      by (rewrite forallb_app, H; reflexivity).
    destruct (encrypt_block feedback key) as [ks|e]; cbn [fst].
    + apply IH, H'.
    + exact H'.
Qed.

(** The accumulating loop against the block-by-block recursion. *)
Lemma cfb_decrypt_loop_spec (blocks : list Z) (key : Z) :
  forall out feedback,
    ('(plaintext, _) <- for_each blocks (cfb_decrypt_body key) (out, feedback) ;;
     Ok plaintext)
    = (ps <- cfb_decrypt_spec blocks key feedback ;; Ok (out ++ ps)).
Proof.
  induction blocks as [|block rest IH]; intros out feedback.
  - cbn. rewrite app_nil_r. reflexivity.
  - step_spec. unfold_body.
    destruct (encrypt_block feedback key) as [ks|e]; cbn [bind]; [|reflexivity].
    fold (cfb_decrypt_body key). rewrite IH.
    destruct (cfb_decrypt_spec rest key block) as [ps|e]; cbn [bind];
      [|reflexivity].
    rewrite <- app_assoc. reflexivity.
Qed.

(** C5: [cfb_decrypt] computes exactly the algorithm of the specification
    (feedback starts as the IV; each block gives p[i] = c[i] XOR
    encrypt_block(feedback, key), then feedback becomes c[i]), and every call
    it makes to a block primitive is a call of [encrypt_block]: [decrypt_block]
    is never invoked. *)
Theorem cfb_decrypt_refines_spec (blocks : list Z) (key iv : Z) :
  cfb_decrypt blocks key iv = cfb_decrypt_spec blocks key iv
  /\ snd (cfb_decrypt_traced blocks key iv) = cfb_decrypt blocks key iv
  /\ forallb is_encrypt_call (fst (cfb_decrypt_traced blocks key iv)) = true.
Proof.
  split; [|split].
  - unfold_mode. fold (cfb_decrypt_body key).
    rewrite (cfb_decrypt_loop_spec blocks key [] iv).
    destruct (cfb_decrypt_spec blocks key iv); reflexivity.
  - unfold_traced. unfold_mode. fold (cfb_decrypt_body key).
    rewrite <- (cfb_decrypt_loop_value blocks key ([], iv) []).
    destruct (cfb_decrypt_loop blocks key ([], iv) []); reflexivity.
  - unfold_traced.
    pose proof (cfb_decrypt_loop_calls blocks key ([], iv) [] eq_refl) as H.
    destruct (cfb_decrypt_loop blocks key ([], iv) []); exact H.
Qed.

(** C6 (as the code behaves): with a 128-bit key, an analyzer given fewer
    than two blocks raises [IndexError] when it reads the ciphertext list
    (after the encryption and the clean decryption have run); given more
    than two blocks it raises nothing and returns the very report it returns
    for the first two blocks alone. *)
Theorem analyze_block_count (key iv : Z) (blocks : list Z) :
  0 <= key < 2 ^ 128 ->
  ((List.length blocks < 2)%nat ->
     analyze_cbc key iv blocks = Raise IndexError
     /\ analyze_cfb key iv blocks = Raise IndexError)
  /\ (forall p1 p2 rest, blocks = p1 :: p2 :: rest ->
        (exists report, analyze_cbc key iv blocks = Ok report
                        /\ analyze_cbc key iv [p1; p2] = Ok report)
        /\ (exists report, analyze_cfb key iv blocks = Ok report
                           /\ analyze_cfb key iv [p1; p2] = Ok report)).
Proof.
  intros Hk. split.
  - intros Hlen. destruct blocks as [|p [|? ?]]; [| |cbn in Hlen; lia].
    + split; reflexivity.
    + split.
      * destruct (cbc_encrypt_total key Hk [p] iv) as [cs [E L]].
        destruct cs as [|c [|? ?]]; try discriminate L.
        destruct (cbc_decrypt_total key Hk [c] iv) as [ps [D L']].
        unfold_analyze. rewrite E. cbn [bind]. rewrite D. reflexivity.
      * destruct (cfb_encrypt_total key Hk [p] iv) as [cs [E L]].
        destruct cs as [|c [|? ?]]; try discriminate L.
        destruct (cfb_decrypt_total key Hk [c] iv) as [ps [D L']].
        unfold_analyze. rewrite E. cbn [bind]. rewrite D. reflexivity.
  - intros p1 p2 rest ->. split.
    + destruct (mode_prefix key Hk (cbc_encrypt_body key)) with
        (x0 := p1) (x1 := p2) (rest := rest) (iv := iv)
        as [c0 [c1 [cs [E2 E]]]]; [auto|].
      destruct (mode_prefix key Hk (cbc_decrypt_body key)) with
        (x0 := c0) (x1 := c1) (rest := cs) (iv := iv)
        as [a0 [a1 [ps [D2 D]]]]; [auto|].
      destruct (cbc_decrypt_pair key Hk (Z.lxor c0 (Z.shiftl 1 BIT_TO_FLIP)) c1 iv)
        as [e0 [e1 [_ [_ Dcorr]]]].
      rewrite (analyze_cbc_from key iv (p1 :: p2 :: rest) c0 c1 a0 a1 cs ps E D).
      rewrite (analyze_cbc_from key iv [p1; p2] c0 c1 a0 a1 [] [] E2 D2).
      rewrite Dcorr. cbn [bind Py.getitem nth_error]. eauto.
    + destruct (mode_prefix key Hk (cfb_encrypt_body key)) with
        (x0 := p1) (x1 := p2) (rest := rest) (iv := iv)
        as [c0 [c1 [cs [E2 E]]]]; [auto|].
      destruct (mode_prefix key Hk (cfb_decrypt_body key)) with
        (x0 := c0) (x1 := c1) (rest := cs) (iv := iv)
        as [a0 [a1 [ps [D2 D]]]]; [auto 6|].
      destruct (cfb_decrypt_pair key Hk (Z.lxor c0 (Z.shiftl 1 BIT_TO_FLIP)) c1 iv)
        as [e0 [e1 [_ [_ Dcorr]]]].
      rewrite (analyze_cfb_from key iv (p1 :: p2 :: rest) c0 c1 a0 a1 cs ps E D).
      rewrite (analyze_cfb_from key iv [p1; p2] c0 c1 a0 a1 [] [] E2 D2).
      rewrite Dcorr. cbn [bind Py.getitem nth_error]. eauto.
Qed.

(** C7 (as the code behaves): for a 128-bit key and a round count that is
    zero or negative, [derive_subkeys] raises nothing and returns the empty
    schedule. *)
Theorem derive_subkeys_no_rounds (key rounds : Z) :
  0 <= key < 2 ^ 128 -> rounds <= 0 ->
  derive_subkeys key rounds = Ok [].
Proof.
  intros Hk Hr. unfold_schedule.
  rewrite (int_to_bytes_ok key 16) by exact Hk.
  rewrite (range_nonpositive rounds Hr). reflexivity.
Qed.

(** C8: for every key and IV, each of the four mode wrappers applied to the
    empty block sequence returns the empty sequence and raises nothing. *)
Theorem modes_on_empty_sequence (key iv : Z) :
  cbc_encrypt [] key iv = Ok []
  /\ cbc_decrypt [] key iv = Ok []
  /\ cfb_encrypt [] key iv = Ok []
  /\ cfb_decrypt [] key iv = Ok [].
Proof. repeat split. Qed.

(** C9: when the key, the IV and the input blocks lie in [0, 2^128), every
    block returned by [encrypt_block], [decrypt_block] and the four mode
    wrappers lies in [0, 2^128). *)
Theorem outputs_fit_block_width (key iv b : Z) (blocks : list Z) :
  0 <= key < 2 ^ 128 -> 0 <= iv < 2 ^ 128 -> 0 <= b < 2 ^ 128 ->
  Forall (fun x => 0 <= x < 2 ^ 128) blocks ->
  (exists c, encrypt_block b key = Ok c /\ 0 <= c < 2 ^ 128)
  /\ (exists p, decrypt_block b key = Ok p /\ 0 <= p < 2 ^ 128)
  /\ (exists cs, cbc_encrypt blocks key iv = Ok cs
                 /\ Forall (fun x => 0 <= x < 2 ^ 128) cs)
  /\ (exists ps, cbc_decrypt blocks key iv = Ok ps
                 /\ Forall (fun x => 0 <= x < 2 ^ 128) ps)
  /\ (exists cs, cfb_encrypt blocks key iv = Ok cs
                 /\ Forall (fun x => 0 <= x < 2 ^ 128) cs)
  /\ (exists ps, cfb_decrypt blocks key iv = Ok ps
                 /\ Forall (fun x => 0 <= x < 2 ^ 128) ps).
Proof.
  intros Hk Hiv Hb Hbs.
  split; [apply encrypt_block_ok, Hk|].
  split; [apply decrypt_block_ok, Hk|].
  split; [|split; [|split]].
  - destruct (cbc_encrypt_loop_width key Hk blocks [] iv) as [ys [ch [E W]]].
    exists ys. unfold_mode. fold (cbc_encrypt_body key). rewrite E. auto.
  - destruct (cbc_decrypt_loop_width key Hk blocks [] iv Hbs Hiv)
      as [ys [ch [E W]]].
    exists ys. unfold_mode. fold (cbc_decrypt_body key). rewrite E. auto.
  - destruct (cfb_encrypt_loop_width key Hk blocks [] iv Hbs) as [ys [ch [E W]]].
    exists ys. unfold_mode. fold (cfb_encrypt_body key). rewrite E. auto.
  - destruct (cfb_decrypt_loop_width key Hk blocks [] iv Hbs) as [ys [ch [E W]]].
    exists ys. unfold_mode. fold (cfb_decrypt_body key). rewrite E. auto.
Qed.

(** The key bound cannot be dropped: [key.to_bytes(16, "big")] raises for any
    other key, whatever the block. *)
Lemma block_primitives_wide_key (b key : Z) :
  ~ in_width 128 key ->
  encrypt_block b key = Raise OverflowError
  /\ decrypt_block b key = Raise OverflowError.
Proof.
  intros H. unfold_block. unfold_schedule.
  rewrite (int_to_bytes_overflow key 16) by exact H. split; reflexivity.
Qed.

End Task3_Properties.

(** ** [to_block] *)

Lemma ljust_length (data : list byte) (width : nat) :
  (List.length data <= width)%nat ->
  List.length (Py.bytes_ljust data width) = width.
Proof.
  intros H. unfold Py.bytes_ljust. rewrite length_app, repeat_length. lia.
Qed.

(** C10: for a text whose UTF-8 encoding is [data], [to_block] raises a
    [ValueError] exactly when [data] is longer than 16 bytes; otherwise it
    returns the big-endian integer value of [data] right-padded with zero
    bytes to 16 bytes, a value below 2^128. *)
Theorem to_block_spec (text : Py.str) (data : list byte) :
  Py.str_encode_utf8 text = Ok data ->
  ((exists msg, to_block text = Raise (ValueError msg))
     <-> (16 < List.length data)%nat)
  /\ ((List.length data <= 16)%nat ->
      to_block text
      = Ok (Py.int_from_bytes (data ++ repeat x00 (16 - List.length data)))
      /\ 0 <= Py.int_from_bytes (data ++ repeat x00 (16 - List.length data))
           < 2 ^ 128).
Proof.
  intros E. unfold to_block. rewrite E. cbn [bind].
  destruct (Nat.ltb_spec 16 (List.length data)) as [Hlong|Hshort].
  - split; [|lia]. split; [intros _; exact Hlong | intros _; eauto].
  - split.
    + split; [intros [msg H]; discriminate H | lia].
    + intros _. split; [reflexivity|].
      pose proof (int_from_bytes_range (Py.bytes_ljust data 16)) as R.
      rewrite ljust_length in R by exact Hshort. exact R.
Qed.

(** * The analyzers on BLAKE2s

    The theorems above hold for any hash with an eight-byte digest.  Below
    they are applied to BLAKE2s itself, at the key and IV of [main]. *)

Lemma flat_map_le32_length (ws : list Z) :
  List.length (flat_map Blake2s.le32 ws) = (4 * List.length ws)%nat.
Proof.
  induction ws as [|w ws IH]; [reflexivity|].
  cbn [flat_map]. rewrite length_app, IH. cbn [Blake2s.le32 List.length]. lia.
Qed.

Lemma blake2s_digest_size_8 (data : list byte) :
  List.length (Blake2s.blake2s data 8) = 8%nat.
Proof.
  unfold Blake2s.blake2s. rewrite length_firstn, flat_map_le32_length.
  rewrite length_map, length_seq. reflexivity.
Qed.

Lemma block_round_trip_witness :
  0 <= demo_key < 2 ^ 128 /\ 0 <= 12345 < 2 ^ 128
  /\ (c <- encrypt_block Blake2s.blake2s 12345 demo_key ;;
      decrypt_block Blake2s.blake2s c demo_key) = Ok 12345
  /\ (p <- decrypt_block Blake2s.blake2s 12345 demo_key ;;
      encrypt_block Blake2s.blake2s p demo_key) = Ok 12345.
Proof.
  split; [by_computation|]. split; [lia|].
  apply (block_round_trip Blake2s.blake2s blake2s_digest_size_8 12345 demo_key);
    [by_computation | lia].
Defined.

Lemma mode_round_trip_witness :
  0 <= demo_key < 2 ^ 128 /\ 0 <= demo_iv < 2 ^ 128
  /\ [1; 2] <> [] /\ Forall (fun b => 0 <= b < 2 ^ 128) [1; 2]
  /\ (cs <- cbc_encrypt Blake2s.blake2s [1; 2] demo_key demo_iv ;;
      cbc_decrypt Blake2s.blake2s cs demo_key demo_iv) = Ok [1; 2]
  /\ (cs <- cfb_encrypt Blake2s.blake2s [1; 2] demo_key demo_iv ;;
      cfb_decrypt Blake2s.blake2s cs demo_key demo_iv) = Ok [1; 2].
Proof.
  assert (Hb : Forall (fun b => 0 <= b < 2 ^ 128) [1; 2])
    by (constructor; [lia | constructor; [lia | constructor]]).
  split; [by_computation|]. split; [by_computation|].
  split; [discriminate|]. split; [exact Hb|].
  apply (mode_round_trip Blake2s.blake2s blake2s_digest_size_8 [1; 2]
           demo_key demo_iv);
    [by_computation | by_computation | discriminate | exact Hb].
Defined.

Lemma analyze_cbc_second_block_witness :
  0 <= demo_key < 2 ^ 128 /\ 0 <= demo_iv < 2 ^ 128
  /\ 0 <= 1 < 2 ^ 128 /\ 0 <= 2 < 2 ^ 128
  /\ exists c0 c1 b0 b1 report,
      cbc_encrypt Blake2s.blake2s [1; 2] demo_key demo_iv = Ok [c0; c1]
      /\ cbc_decrypt Blake2s.blake2s [c0; c1] demo_key demo_iv = Ok [1; 2]
      /\ cbc_decrypt Blake2s.blake2s [Z.lxor c0 (Z.shiftl 1 BIT_TO_FLIP); c1]
           demo_key demo_iv = Ok [b0; b1]
      /\ Z.lxor 2 b1 = Z.shiftl 1 BIT_TO_FLIP
      /\ analyze_cbc Blake2s.blake2s demo_key demo_iv [1; 2] = Ok report
      /\ p2_diff report = 1
      /\ p1_diff report = bit_diff 1 b0
      /\ bit_flip_index report = 17.
Proof.
  split; [by_computation|]. split; [by_computation|].
  split; [lia|]. split; [lia|].
  apply (analyze_cbc_second_block Blake2s.blake2s blake2s_digest_size_8
           demo_key demo_iv 1 2);
    [by_computation | by_computation | lia | lia].
Defined.

Lemma analyze_cfb_first_block_witness :
  0 <= demo_key < 2 ^ 128 /\ 0 <= demo_iv < 2 ^ 128
  /\ 0 <= 1 < 2 ^ 128 /\ 0 <= 2 < 2 ^ 128
  /\ exists c0 c1 b0 b1 report,
      cfb_encrypt Blake2s.blake2s [1; 2] demo_key demo_iv = Ok [c0; c1]
      /\ cfb_decrypt Blake2s.blake2s [c0; c1] demo_key demo_iv = Ok [1; 2]
      /\ cfb_decrypt Blake2s.blake2s [Z.lxor c0 (Z.shiftl 1 BIT_TO_FLIP); c1]
           demo_key demo_iv = Ok [b0; b1]
      /\ Z.lxor 1 b0 = Z.shiftl 1 BIT_TO_FLIP
      /\ analyze_cfb Blake2s.blake2s demo_key demo_iv [1; 2] = Ok report
      /\ p1_diff report = 1
      /\ p2_diff report = bit_diff 2 b1
      /\ bit_flip_index report = 17.
Proof.
  split; [by_computation|]. split; [by_computation|].
  split; [lia|]. split; [lia|].
  apply (analyze_cfb_first_block Blake2s.blake2s blake2s_digest_size_8
           demo_key demo_iv 1 2);
    [by_computation | by_computation | lia | lia].
Defined.

(** C6, the claim as written fails: handed three blocks, both analyzers return
    a report instead of raising. *)
Lemma analyze_three_blocks_counterexample :
  List.length [1; 2; 3] <> 2%nat
  /\ (exists report,
        analyze_cbc Blake2s.blake2s demo_key demo_iv [1; 2; 3] = Ok report
        /\ p1_diff report = 66 /\ p2_diff report = 1)
  /\ (exists report,
        analyze_cfb Blake2s.blake2s demo_key demo_iv [1; 2; 3] = Ok report
        /\ p1_diff report = 1 /\ p2_diff report = 66).
Proof.
  split; [discriminate|]. split.
  - eexists. split; [vm_compute; reflexivity|]. split; reflexivity.
  - eexists. split; [vm_compute; reflexivity|]. split; reflexivity.
Qed.

Lemma analyze_block_count_witness :
  0 <= demo_key < 2 ^ 128
  /\ ((List.length [1; 2; 3] < 2)%nat ->
       analyze_cbc Blake2s.blake2s demo_key demo_iv [1; 2; 3] = Raise IndexError
       /\ analyze_cfb Blake2s.blake2s demo_key demo_iv [1; 2; 3] = Raise IndexError)
  /\ (forall p1 p2 rest, [1; 2; 3] = p1 :: p2 :: rest ->
        (exists report,
           analyze_cbc Blake2s.blake2s demo_key demo_iv [1; 2; 3] = Ok report
           /\ analyze_cbc Blake2s.blake2s demo_key demo_iv [p1; p2] = Ok report)
        /\ (exists report,
              analyze_cfb Blake2s.blake2s demo_key demo_iv [1; 2; 3] = Ok report
              /\ analyze_cfb Blake2s.blake2s demo_key demo_iv [p1; p2] = Ok report)).
Proof.
  split; [by_computation|].
  apply (analyze_block_count Blake2s.blake2s blake2s_digest_size_8
           demo_key demo_iv [1; 2; 3]).
  by_computation.
Defined.

(** C7, the claim as written fails: a zero or negative round count yields the
    empty schedule, not an error. *)
Lemma derive_subkeys_zero_rounds_counterexample :
  derive_subkeys Blake2s.blake2s demo_key 0 = Ok []
  /\ derive_subkeys Blake2s.blake2s demo_key (-3) = Ok [].
Proof. split; vm_compute; reflexivity. Qed.

Lemma derive_subkeys_no_rounds_witness :
  0 <= demo_key < 2 ^ 128 /\ -3 <= 0
  /\ derive_subkeys Blake2s.blake2s demo_key (-3) = Ok [].
Proof.
  split; [by_computation|]. split; [lia|].
  apply (derive_subkeys_no_rounds Blake2s.blake2s demo_key (-3));
    [by_computation | lia].
Defined.

Lemma outputs_fit_block_width_witness :
  0 <= demo_key < 2 ^ 128 /\ 0 <= demo_iv < 2 ^ 128 /\ 0 <= 12345 < 2 ^ 128
  /\ Forall (fun x => 0 <= x < 2 ^ 128) [1; 2]
  /\ (exists c, encrypt_block Blake2s.blake2s 12345 demo_key = Ok c
                /\ 0 <= c < 2 ^ 128)
  /\ (exists p, decrypt_block Blake2s.blake2s 12345 demo_key = Ok p
                /\ 0 <= p < 2 ^ 128)
  /\ (exists cs, cbc_encrypt Blake2s.blake2s [1; 2] demo_key demo_iv = Ok cs
                 /\ Forall (fun x => 0 <= x < 2 ^ 128) cs)
  /\ (exists ps, cbc_decrypt Blake2s.blake2s [1; 2] demo_key demo_iv = Ok ps
                 /\ Forall (fun x => 0 <= x < 2 ^ 128) ps)
  /\ (exists cs, cfb_encrypt Blake2s.blake2s [1; 2] demo_key demo_iv = Ok cs
                 /\ Forall (fun x => 0 <= x < 2 ^ 128) cs)
  /\ (exists ps, cfb_decrypt Blake2s.blake2s [1; 2] demo_key demo_iv = Ok ps
                 /\ Forall (fun x => 0 <= x < 2 ^ 128) ps).
Proof.
  assert (Hb : Forall (fun b => 0 <= b < 2 ^ 128) [1; 2])
    by (constructor; [lia | constructor; [lia | constructor]]).
  split; [by_computation|]. split; [by_computation|]. split; [lia|].
  split; [exact Hb|].
  apply (outputs_fit_block_width Blake2s.blake2s blake2s_digest_size_8
           demo_key demo_iv 12345 [1; 2]);
    [by_computation | by_computation | lia | exact Hb].
Defined.

Lemma to_block_spec_witness :
  Py.str_encode_utf8 (Py.str_of_ascii "Plaintext block1")
  = Ok (bytes_of_ascii "Plaintext block1")
  /\ ((exists msg,
         to_block (Py.str_of_ascii "Plaintext block1") = Raise (ValueError msg))
      <-> (16 < List.length (bytes_of_ascii "Plaintext block1"))%nat)
  /\ ((List.length (bytes_of_ascii "Plaintext block1") <= 16)%nat ->
      to_block (Py.str_of_ascii "Plaintext block1")
      = Ok (Py.int_from_bytes
              (bytes_of_ascii "Plaintext block1"
               ++ repeat x00 (16 - List.length (bytes_of_ascii "Plaintext block1"))))
      /\ 0 <= Py.int_from_bytes
                (bytes_of_ascii "Plaintext block1"
                 ++ repeat x00
                      (16 - List.length (bytes_of_ascii "Plaintext block1")))
           < 2 ^ 128).
Proof.
  split; [reflexivity|].
  apply (to_block_spec (Py.str_of_ascii "Plaintext block1")
           (bytes_of_ascii "Plaintext block1")).
  reflexivity.
Defined.

(** The run of [main]: CBC garbles the first block and leaks one bit into the
    second, CFB does the opposite. *)
Lemma main_reports :
  exists cbc cfb,
    demo_reports = Ok [cbc; cfb]
    /\ p1_diff cbc = 62 /\ p2_diff cbc = 1
    /\ p1_diff cfb = 1 /\ p2_diff cfb = 63.
Proof.
  eexists _, _. split; [vm_compute; reflexivity|]. repeat split.
Qed.

(** Nor can the IV bound for CBC: a 129-bit IV leaks its top bit into the
    decrypted block. *)
Lemma cbc_wide_iv :
  (cs <- cbc_encrypt Blake2s.blake2s [1] demo_key (2 ^ 128) ;;
   cbc_decrypt Blake2s.blake2s cs demo_key (2 ^ 128)) = Ok [2 ^ 128 + 1].
Proof. vm_compute. reflexivity. Qed.

(** * Further properties of the module *)

(** ** Key schedule and round function *)

Lemma testbit_mod_block (b i : Z) :
  0 <= i < 128 -> Z.testbit (b mod 2 ^ 128) i = Z.testbit b i.
Proof. intros H. apply Z.mod_pow2_bits_low. lia. Qed.

Lemma halves_mod_block (b : Z) :
  Z.land (Z.shiftr (b mod 2 ^ 128) HALF_BLOCK) HALF_MASK
  = Z.land (Z.shiftr b HALF_BLOCK) HALF_MASK
  /\ Z.land (b mod 2 ^ 128) HALF_MASK = Z.land b HALF_MASK.
Proof.
  rewrite HALF_MASK_ones. change HALF_BLOCK with 64. split.
  - apply Z.bits_inj'. intros i Hi.
    rewrite !Z.land_spec, !Z.shiftr_spec by assumption.
    rewrite Z.testbit_ones_nonneg by lia.
    destruct (Z.ltb_spec i 64).
    + rewrite testbit_mod_block by lia. reflexivity.
    + rewrite !andb_false_r. reflexivity.
  - apply Z.bits_inj'. intros i Hi.
    rewrite !Z.land_spec. rewrite Z.testbit_ones_nonneg by lia.
    destruct (Z.ltb_spec i 64).
    + rewrite testbit_mod_block by lia. reflexivity.
    + rewrite !andb_false_r. reflexivity.
Qed.

Lemma range_split (n m : Z) :
  0 <= n <= m ->
  Py.range m = Py.range n ++ map Z.of_nat (seq (Z.to_nat n) (Z.to_nat (m - n))).
Proof.
  intros H. unfold Py.range.
  replace (Z.to_nat m) with (Z.to_nat n + Z.to_nat (m - n))%nat by lia.
  rewrite seq_app, map_app. reflexivity.
Qed.

Lemma range_firstn (n m : Z) :
  0 <= n <= m -> firstn (Z.to_nat n) (Py.range m) = Py.range n.
Proof.
  intros H. rewrite (range_split n m H).
  rewrite firstn_app, range_length, Nat.sub_diag, firstn_O, app_nil_r.
  apply firstn_all2. rewrite range_length. lia.
Qed.

Section Task3_Schedule.

Variable blake2s : list byte -> nat -> list byte.

Hypothesis blake2s_digest_size :
  forall data, List.length (blake2s data 8) = 8%nat.

Local Abbreviation derive_subkeys := (derive_subkeys blake2s).
Local Abbreviation round_function := (round_function blake2s).
Local Abbreviation encrypt_block := (encrypt_block blake2s).
Local Abbreviation decrypt_block := (decrypt_block blake2s).

(** The loop of [derive_subkeys] over counters that fit two bytes, in closed
    form. *)
Lemma derive_subkeys_loop_map (seed : list byte) (cs acc : list Z) :
  Forall (in_width 16) cs ->
  for_each cs
    (fun subkeys counter =>
       counter_bytes <- Py.int_to_bytes counter 2 ;;
       Ok (subkeys ++ [Py.int_from_bytes (blake2s (seed ++ counter_bytes) 8)]))
    acc
  = Ok (acc ++ map (fun c => Py.int_from_bytes
                               (blake2s (seed ++ Py.be_bytes 2 c) 8)) cs).
Proof.
  intros Hcs; revert acc; induction Hcs as [|c cs Hc Hcs IH]; intros acc.
  - cbn [for_each map]. rewrite app_nil_r. reflexivity.
  - cbn [for_each map]. rewrite (int_to_bytes_ok c 2) by exact Hc. cbn [bind].
    rewrite IH, <- app_assoc. reflexivity.
Qed.

Lemma range_counters_fit (rounds : Z) :
  rounds <= 65536 -> Forall (in_width 16) (Py.range rounds).
Proof.
  intros H. apply Forall_forall. intros c Hc. apply range_in_bounds in Hc.
  unfold in_width. change (2 ^ 16) with 65536. lia.
Qed.

Lemma derive_subkeys_closed_form (key rounds : Z) :
  in_width 128 key -> rounds <= 65536 ->
  derive_subkeys key rounds
  = Ok (map (fun c => Py.int_from_bytes
                        (blake2s (Py.be_bytes 16 key ++ Py.be_bytes 2 c) 8))
            (Py.range rounds)).
Proof.
  intros Hk Hr. unfold_schedule.
  rewrite (int_to_bytes_ok key 16) by exact Hk. cbn [bind].
  rewrite derive_subkeys_loop_map by (apply range_counters_fit, Hr).
  reflexivity.
Qed.

(** X1: for a key in [0, 2^128) and a round count between 0 and 65536,
    [derive_subkeys] raises nothing and returns exactly [rounds] subkeys, each
    in [0, 2^64). *)
Theorem derive_subkeys_shape (key rounds : Z) :
  0 <= key < 2 ^ 128 -> 0 <= rounds <= 65536 ->
  exists subkeys,
    derive_subkeys key rounds = Ok subkeys
    /\ Z.of_nat (List.length subkeys) = rounds
    /\ Forall (fun k => 0 <= k < 2 ^ 64) subkeys.
Proof.
  intros Hk Hr.
  destruct (derive_subkeys_ok blake2s blake2s_digest_size key rounds Hk)
    as [sks [E [W L]]]; [lia|].
  exists sks. split; [exact E|]. split; [lia | exact W].
Qed.

(** X2: subkey number i depends on the key and on i only, not on how many
    rounds are asked for: for a key in [0, 2^128) and n <= m <= 65536, the
    schedule for n rounds is the first n subkeys of the schedule for m rounds. *)
Theorem derive_subkeys_prefix (key n m : Z) :
  0 <= key < 2 ^ 128 -> 0 <= n <= m -> m <= 65536 ->
  exists longer,
    derive_subkeys key m = Ok longer
    /\ derive_subkeys key n = Ok (firstn (Z.to_nat n) longer).
Proof.
  intros Hk Hn Hm.
  rewrite (derive_subkeys_closed_form key m Hk Hm).
  rewrite (derive_subkeys_closed_form key n Hk) by lia.
  eexists. split; [reflexivity|].
  rewrite firstn_map, (range_firstn n m Hn). reflexivity.
Qed.

(** X3: [derive_subkeys] raises [OverflowError] when the key is outside
    [0, 2^128), whatever the round count, and when the key is inside but more
    than 65536 rounds are asked for (counter 65536 does not fit two bytes). *)
Theorem derive_subkeys_overflow (key rounds : Z) :
  ~ (0 <= key < 2 ^ 128) \/ 65536 < rounds ->
  derive_subkeys key rounds = Raise OverflowError.
Proof.
  intros H. unfold_schedule.
  destruct (Z.ltb_spec key 0) as [Hneg|Hpos];
    [rewrite (int_to_bytes_overflow key 16)
       by (unfold in_width; lia); reflexivity|].
  destruct (Z.ltb_spec key (2 ^ 128)) as [Hlt|Hge];
    [|rewrite (int_to_bytes_overflow key 16)
        by (unfold in_width; change (8 * Z.of_nat 16) with 128; lia);
      reflexivity].
  destruct H as [H|H]; [lia|].
  rewrite (int_to_bytes_ok key 16)
    by (unfold in_width; change (8 * Z.of_nat 16) with 128; lia).
  cbn [bind].
  rewrite (range_split 65536 rounds) by lia.
  rewrite for_each_app.
  rewrite derive_subkeys_loop_map by (apply range_counters_fit; lia).
  cbn [bind].
  replace (Z.to_nat (rounds - 65536)) with (S (Z.to_nat (rounds - 65537))) by lia.
  cbn [seq map for_each]. rewrite Z2Nat.id by lia.
  rewrite (int_to_bytes_overflow 65536 2); [reflexivity|].
  unfold in_width. change (2 ^ (8 * Z.of_nat 2)) with 65536. lia.
Qed.

(** X4: [round_function] returns a value in [0, 2^64) when the half block and
    the subkey are both in [0, 2^64), and raises [OverflowError] otherwise. *)
Theorem round_function_domain (half_block subkey : Z) :
  ((0 <= half_block < 2 ^ 64 /\ 0 <= subkey < 2 ^ 64) ->
     exists f, round_function half_block subkey = Ok f /\ 0 <= f < 2 ^ 64)
  /\ (~ (0 <= half_block < 2 ^ 64 /\ 0 <= subkey < 2 ^ 64) ->
        round_function half_block subkey = Raise OverflowError).
Proof.
  split.
  - intros [Hh Hs].
    apply (round_function_ok blake2s blake2s_digest_size); assumption.
  - intros H. unfold_round.
    assert (D : (0 <= half_block < 2 ^ 64) \/ ~ (0 <= half_block < 2 ^ 64)) by lia.
    destruct D as [Hh|Hh].
    + rewrite (int_to_bytes_ok half_block 8) by exact Hh. cbn [bind].
      rewrite (int_to_bytes_overflow subkey 8); [reflexivity|].
      unfold in_width. change (2 ^ (8 * Z.of_nat 8)) with (2 ^ 64). tauto.
    + rewrite (int_to_bytes_overflow half_block 8); [reflexivity|].
      unfold in_width. change (2 ^ (8 * Z.of_nat 8)) with (2 ^ 64). exact Hh.
Qed.

Lemma encrypt_block_reduces (block key : Z) :
  encrypt_block block key = encrypt_block (block mod 2 ^ 128) key.
Proof.
  destruct (halves_mod_block block) as [Hl Hr].
  unfold_block. cbv zeta. rewrite Hl, Hr. reflexivity.
Qed.

Lemma decrypt_encrypt_any (block key : Z) :
  in_width 128 key ->
  (c <- encrypt_block block key ;; decrypt_block c key) = Ok (block mod 2 ^ 128).
Proof.
  intros Hk. rewrite encrypt_block_reduces.
  apply (decrypt_encrypt_block blake2s blake2s_digest_size); [exact Hk|].
  apply Z.mod_pos_bound. reflexivity.
Qed.

(** Blocks that differ modulo 2^128 encrypt to different blocks. *)
Lemma encrypt_block_distinct (a b key x y : Z) :
  in_width 128 key -> a mod 2 ^ 128 <> b mod 2 ^ 128 ->
  encrypt_block a key = Ok x -> encrypt_block b key = Ok y -> x <> y.
Proof.
  intros Hk Hab Ea Eb Hxy. subst y.
  pose proof (decrypt_encrypt_any a key Hk) as Da.
  pose proof (decrypt_encrypt_any b key Hk) as Db.
  rewrite Ea in Da. rewrite Eb in Db. cbn [bind] in Da, Db. congruence.
Qed.

(** Distinct 128-bit blocks decrypt to different blocks. *)
Lemma decrypt_block_distinct (a b key x y : Z) :
  in_width 128 key -> in_width 128 a -> in_width 128 b -> a <> b ->
  decrypt_block a key = Ok x -> decrypt_block b key = Ok y -> x <> y.
Proof.
  intros Hk Ha Hb Hab Ea Eb Hxy. subst y.
  pose proof (encrypt_decrypt_block blake2s blake2s_digest_size a key Hk Ha) as Da.
  pose proof (encrypt_decrypt_block blake2s blake2s_digest_size b key Hk Hb) as Db.
  rewrite Ea in Da. rewrite Eb in Db. cbn [bind] in Da, Db. congruence.
Qed.

(** X5: the block primitives read their block argument modulo 2^128: for any
    integer block (negative or wider than 128 bits) and any key,
    [encrypt_block] and [decrypt_block] act as on [block mod 2^128], so with a
    128-bit key decrypting an encrypted integer gives it back reduced
    modulo 2^128. *)
Theorem block_primitives_reduce_block (block key : Z) :
  encrypt_block block key = encrypt_block (block mod 2 ^ 128) key
  /\ decrypt_block block key = decrypt_block (block mod 2 ^ 128) key
  /\ (0 <= key < 2 ^ 128 ->
      (c <- encrypt_block block key ;; decrypt_block c key)
      = Ok (block mod 2 ^ 128)).
Proof.
  split; [apply encrypt_block_reduces|]. split.
  - destruct (halves_mod_block block) as [Hl Hr].
    unfold_block. cbv zeta. rewrite Hl, Hr. reflexivity.
  - apply decrypt_encrypt_any.
Qed.

End Task3_Schedule.

(** ** [flip_bit] and [bit_diff] *)

Lemma bit_count_nonneg (x : Z) : 0 <= Py.int_bit_count x.
Proof.
  assert (P : forall p, 0 < Py.pos_bit_count p)
    by (induction p; cbn [Py.pos_bit_count]; lia).
  destruct x as [|p|p]; cbn [Py.int_bit_count]; [lia | |]; specialize (P p); lia.
Qed.

Lemma bit_count_zero (x : Z) : Py.int_bit_count x = 0 <-> x = 0.
Proof.
  assert (P : forall p, 0 < Py.pos_bit_count p)
    by (induction p; cbn [Py.pos_bit_count]; lia).
  destruct x as [|p|p]; cbn [Py.int_bit_count].
  - tauto.
  - specialize (P p). split; [lia | discriminate].
  - specialize (P p). split; [lia | discriminate].
Qed.

Lemma bit_count_double (x : Z) : Py.int_bit_count (2 * x) = Py.int_bit_count x.
Proof. destruct x; reflexivity. Qed.

Lemma bit_count_pow2 (i : Z) : 0 <= i -> Py.int_bit_count (2 ^ i) = 1.
Proof.
  revert i. apply natlike_ind; [reflexivity|].
  intros i Hi IH. rewrite Z.pow_succ_r by exact Hi.
  rewrite bit_count_double. exact IH.
Qed.

(** Popcount, one bit at a time. *)
Lemma bit_count_step (x : Z) :
  0 <= x ->
  Py.int_bit_count x = (if Z.testbit x 0 then 1 else 0) + Py.int_bit_count (x / 2).
Proof.
  intros Hx. rewrite <- Z.div2_div.
  destruct x as [|p|p]; [reflexivity | | lia].
  destruct p; cbn [Z.testbit Pos.testbit Py.int_bit_count Py.pos_bit_count Z.div2];
    reflexivity.
Qed.

Lemma filter_map_length {A B : Type} (f : B -> bool) (g : A -> B) (l : list A) :
  List.length (filter f (map g l)) = List.length (filter (fun x => f (g x)) l).
Proof.
  induction l as [|x l IH]; [reflexivity|].
  cbn [map filter]. destruct (f (g x)); cbn [List.length]; rewrite IH; reflexivity.
Qed.

Lemma bit_count_set_bits (n : nat) :
  forall x, 0 <= x < 2 ^ Z.of_nat n ->
    Py.int_bit_count x
    = Z.of_nat (List.length (filter (Z.testbit x) (map Z.of_nat (seq 0 n)))).
Proof.
  induction n as [|n IH]; intros x Hx.
  - cbn in Hx. assert (x = 0) by lia. subst x. reflexivity.
  - rewrite bit_count_step by lia.
    assert (Hhalf : 0 <= x / 2 < 2 ^ Z.of_nat n).
    { rewrite Nat2Z.inj_succ, Z.pow_succ_r in Hx by lia.
      split; [apply Z.div_pos; lia | apply Z.div_lt_upper_bound; lia]. }
    rewrite (IH (x / 2) Hhalf).
    cbn [seq map filter]. rewrite <- seq_shift, map_map.
    assert (E : List.length (filter (Z.testbit x)
                               (map (fun i => Z.of_nat (S i)) (seq 0 n)))
                = List.length (filter (Z.testbit (x / 2))
                                 (map Z.of_nat (seq 0 n)))).
    { rewrite !filter_map_length. f_equal. apply filter_ext. intros i.
      rewrite Nat2Z.inj_succ, Z.div2_bits by lia. reflexivity. }
    change (Z.of_nat 0) with 0.
    destruct (Z.testbit x 0); cbn [List.length]; rewrite E; lia.
Qed.

Lemma filter_length_le {A : Type} (f : A -> bool) (l : list A) :
  (List.length (filter f l) <= List.length l)%nat.
Proof.
  induction l as [|x l IH]; [reflexivity|].
  cbn [filter]. destruct (f x); cbn [List.length]; lia.
Qed.

Lemma bit_count_le_width (n : nat) (x : Z) :
  0 <= x < 2 ^ Z.of_nat n -> Py.int_bit_count x <= Z.of_nat n.
Proof.
  intros Hx. rewrite (bit_count_set_bits n x Hx).
  pose proof (filter_length_le (Z.testbit x) (map Z.of_nat (seq 0 n))) as L.
  rewrite length_map, length_seq in L. lia.
Qed.

Lemma lxor_common_r (a b v : Z) : Z.lxor (Z.lxor a v) (Z.lxor b v) = Z.lxor a b.
Proof.
  apply Z.bits_inj'. intros i _. rewrite !Z.lxor_spec.
  destruct (Z.testbit a i), (Z.testbit b i), (Z.testbit v i); reflexivity.
Qed.

Lemma lxor_common_l (a b v : Z) : Z.lxor (Z.lxor v a) (Z.lxor v b) = Z.lxor a b.
Proof.
  apply Z.bits_inj'. intros i _. rewrite !Z.lxor_spec.
  destruct (Z.testbit a i), (Z.testbit b i), (Z.testbit v i); reflexivity.
Qed.

(** The distance of two distinct values below 2^128 is between 1 and 128. *)
Lemma bit_diff_distinct_blocks (a b : Z) :
  in_width 128 a -> in_width 128 b -> a <> b ->
  1 <= Py.int_bit_count (Z.lxor a b) <= 128.
Proof.
  intros Ha Hb Hab.
  assert (Hx : in_width 128 (Z.lxor a b))
    by (apply in_width_lxor; [lia | assumption..]).
  pose proof (bit_count_le_width 128 (Z.lxor a b) Hx) as Hle.
  pose proof (bit_count_nonneg (Z.lxor a b)) as H0.
  assert (Py.int_bit_count (Z.lxor a b) <> 0)
    by (rewrite bit_count_zero, Z.lxor_eq_0_iff; exact Hab).
  change (Z.of_nat 128) with 128 in Hle. lia.
Qed.

(** X6: for a bit index i >= 0, [flip_bit] toggles bit i of the value and
    leaves every other bit alone, and flipping the same bit again gives the
    value back; for a negative index it raises [ValueError]. *)
Theorem flip_bit_toggles (value bit_index : Z) :
  (0 <= bit_index ->
     exists flipped,
       flip_bit value bit_index = Ok flipped
       /\ (forall j, 0 <= j ->
             Z.testbit flipped j
             = if j =? bit_index then negb (Z.testbit value j)
               else Z.testbit value j)
       /\ flip_bit flipped bit_index = Ok value)
  /\ (bit_index < 0 ->
      flip_bit value bit_index = Raise (ValueError "negative shift count")).
Proof.
  unfold flip_bit. split; intros H.
  - destruct (Z.ltb_spec bit_index 0); [lia|].
    eexists. split; [reflexivity|]. split.
    + intros j Hj. rewrite Z.lxor_spec, Z.shiftl_1_l, Z.pow2_bits_eqb by lia.
      rewrite (Z.eqb_sym bit_index j).
      destruct (j =? bit_index), (Z.testbit value j); reflexivity.
    + rewrite lxor_cancel_r. reflexivity.
  - destruct (Z.ltb_spec bit_index 0); [reflexivity | lia].
Qed.

(** X7: [bit_diff] is symmetric, never negative, and zero exactly when its two
    arguments are equal. *)
Theorem bit_diff_separates (a b : Z) :
  bit_diff a b = bit_diff b a
  /\ 0 <= bit_diff a b
  /\ (bit_diff a b = 0 <-> a = b).
Proof.
  unfold bit_diff. split; [rewrite Z.lxor_comm; reflexivity|].
  split; [apply bit_count_nonneg|].
  rewrite bit_count_zero. apply Z.lxor_eq_0_iff.
Qed.

(** X8: on values in [0, 2^n), [bit_diff] is the Hamming distance: it counts the
    bit positions below n where the two values differ, so it is at most n. *)
Theorem bit_diff_hamming (n : nat) (a b : Z) :
  0 <= a < 2 ^ Z.of_nat n -> 0 <= b < 2 ^ Z.of_nat n ->
  bit_diff a b = differing_bits n a b
  /\ bit_diff a b <= Z.of_nat n.
Proof.
  intros Ha Hb.
  assert (Hx : 0 <= Z.lxor a b < 2 ^ Z.of_nat n)
    by (apply in_width_lxor; [lia | assumption..]).
  assert (E : bit_diff a b = differing_bits n a b).
  { unfold bit_diff, differing_bits. rewrite (bit_count_set_bits n _ Hx).
    do 2 f_equal. apply filter_ext. intros i. apply Z.lxor_spec. }
  split; [exact E|]. rewrite E. unfold differing_bits.
  pose proof (filter_length_le
                (fun i => xorb (Z.testbit a i) (Z.testbit b i))
                (map Z.of_nat (seq 0 n))) as L.
  rewrite length_map, length_seq in L. lia.
Qed.

(** X9: flipping any one bit of any integer moves it to [bit_diff] distance
    exactly 1. *)
Theorem bit_diff_of_flip (value bit_index : Z) :
  0 <= bit_index ->
  exists flipped,
    flip_bit value bit_index = Ok flipped /\ bit_diff value flipped = 1.
Proof.
  intros H. unfold flip_bit. destruct (Z.ltb_spec bit_index 0); [lia|].
  eexists. split; [reflexivity|]. unfold bit_diff.
  rewrite <- Z.lxor_assoc, Z.lxor_nilpotent, Z.lxor_0_l, Z.shiftl_1_l.
  apply bit_count_pow2, H.
Qed.

(** ** Chaining: how the mode loops compose *)

Lemma last_cons_default {A : Type} (l : list A) :
  forall (y d : A), last (y :: l) d = last l y.
Proof.
  induction l as [|z l IH]; intros y d; [reflexivity|].
  change (last (y :: z :: l) d) with (last (z :: l) d).
  rewrite (IH z d), (IH z y). reflexivity.
Qed.

Section Appending.

(** A loop body that runs [step] on the chaining value and the next input,
    appends the block [step] yields and hands on the chaining value it yields. *)
Variable step : Z -> Z -> result (Z * Z).
Variable body : list Z * Z -> Z -> result (list Z * Z).
Hypothesis body_step :
  forall out ch x,
    body (out, ch) x = ('(y, c) <- step ch x ;; Ok (out ++ [y], c)).

Lemma for_each_shift (xs : list Z) :
  forall out ch,
    for_each xs body (out, ch)
    = ('(o, c) <- for_each xs body ([], ch) ;; Ok (out ++ o, c)).
Proof.
  induction xs as [|x xs IH]; intros out ch.
  - cbn [for_each bind]. rewrite app_nil_r. reflexivity.
  - cbn [for_each]. rewrite !body_step.
    destruct (step ch x) as [[y c]|e]; cbn [bind]; [|reflexivity].
    rewrite (IH (out ++ [y]) c), (IH ([] ++ [y]) c).
    destruct (for_each xs body ([], c)) as [[o c']|e]; cbn [bind]; [|reflexivity].
    rewrite <- app_assoc. reflexivity.
Qed.

Lemma for_each_cons (x : Z) (xs : list Z) (ch : Z) :
  ('(o, _) <- for_each (x :: xs) body ([], ch) ;; Ok o)
  = ('(y, c) <- step ch x ;;
     ys <- ('(o, _) <- for_each xs body ([], c) ;; Ok o) ;;
     Ok (y :: ys)).
Proof.
  cbn [for_each]. rewrite body_step.
  destruct (step ch x) as [[y c]|e]; cbn [bind]; [|reflexivity].
  rewrite (for_each_shift xs ([] ++ [y]) c).
  destruct (for_each xs body ([], c)) as [[o c']|e]; reflexivity.
Qed.

End Appending.

Section Task3_Chaining.

Variable blake2s : list byte -> nat -> list byte.

Hypothesis blake2s_digest_size :
  forall data, List.length (blake2s data 8) = 8%nat.

Local Abbreviation encrypt_block := (encrypt_block blake2s).
Local Abbreviation decrypt_block := (decrypt_block blake2s).
Local Abbreviation cbc_encrypt_body := (cbc_encrypt_body blake2s).
Local Abbreviation cbc_decrypt_body := (cbc_decrypt_body blake2s).
Local Abbreviation cfb_encrypt_body := (cfb_encrypt_body blake2s).
Local Abbreviation cfb_decrypt_body := (cfb_decrypt_body blake2s).
Local Abbreviation cbc_encrypt := (cbc_encrypt blake2s).
Local Abbreviation cbc_decrypt := (cbc_decrypt blake2s).
Local Abbreviation cfb_encrypt := (cfb_encrypt blake2s).
Local Abbreviation cfb_decrypt := (cfb_decrypt blake2s).
Local Abbreviation analyze_cbc := (analyze_cbc blake2s).
Local Abbreviation analyze_cfb := (analyze_cfb blake2s).

(** The four loop bodies in [step] form. *)
Lemma cbc_encrypt_body_step (key : Z) (out : list Z) (prev block : Z) :
  cbc_encrypt_body key (out, prev) block
  = ('(y, c) <- (c <- encrypt_block (Z.lxor block prev) key ;; Ok (c, c)) ;;
     Ok (out ++ [y], c)).
Proof. unfold_body. destruct (encrypt_block _ key); reflexivity. Qed.

Lemma cbc_decrypt_body_step (key : Z) (out : list Z) (prev block : Z) :
  cbc_decrypt_body key (out, prev) block
  = ('(y, c) <- (d <- decrypt_block block key ;; Ok (Z.lxor d prev, block)) ;;
     Ok (out ++ [y], c)).
Proof. unfold_body. destruct (decrypt_block _ key); reflexivity. Qed.

Lemma cfb_encrypt_body_step (key : Z) (out : list Z) (feedback block : Z) :
  cfb_encrypt_body key (out, feedback) block
  = ('(y, c) <- (ks <- encrypt_block feedback key ;;
                 Ok (Z.lxor block ks, Z.lxor block ks)) ;;
     Ok (out ++ [y], c)).
Proof. unfold_body. destruct (encrypt_block _ key); reflexivity. Qed.

Lemma cfb_decrypt_body_step (key : Z) (out : list Z) (feedback block : Z) :
  cfb_decrypt_body key (out, feedback) block
  = ('(y, c) <- (ks <- encrypt_block feedback key ;;
                 Ok (Z.lxor block ks, block)) ;;
     Ok (out ++ [y], c)).
Proof. unfold_body. destruct (encrypt_block _ key); reflexivity. Qed.

(** Each wrapper, one block at a time. *)
Lemma cbc_encrypt_cons (block : Z) (blocks : list Z) (key iv : Z) :
  cbc_encrypt (block :: blocks) key iv
  = (c <- encrypt_block (Z.lxor block iv) key ;;
     cs <- cbc_encrypt blocks key c ;;
     Ok (c :: cs)).
Proof.
  unfold_mode. fold (cbc_encrypt_body key).
  rewrite (for_each_cons _ _ (cbc_encrypt_body_step key)).
  destruct (encrypt_block _ key); reflexivity.
Qed.

Lemma cbc_decrypt_cons (block : Z) (blocks : list Z) (key iv : Z) :
  cbc_decrypt (block :: blocks) key iv
  = (d <- decrypt_block block key ;;
     ps <- cbc_decrypt blocks key block ;;
     Ok (Z.lxor d iv :: ps)).
Proof.
  unfold_mode. fold (cbc_decrypt_body key).
  rewrite (for_each_cons _ _ (cbc_decrypt_body_step key)).
  destruct (decrypt_block _ key); reflexivity.
Qed.

Lemma cfb_encrypt_cons (block : Z) (blocks : list Z) (key iv : Z) :
  cfb_encrypt (block :: blocks) key iv
  = (ks <- encrypt_block iv key ;;
     cs <- cfb_encrypt blocks key (Z.lxor block ks) ;;
     Ok (Z.lxor block ks :: cs)).
Proof.
  unfold_mode. fold (cfb_encrypt_body key).
  rewrite (for_each_cons _ _ (cfb_encrypt_body_step key)).
  destruct (encrypt_block _ key); reflexivity.
Qed.

Lemma cfb_decrypt_cons (block : Z) (blocks : list Z) (key iv : Z) :
  cfb_decrypt (block :: blocks) key iv
  = (ks <- encrypt_block iv key ;;
     ps <- cfb_decrypt blocks key block ;;
     Ok (Z.lxor block ks :: ps)).
Proof.
  unfold_mode. fold (cfb_decrypt_body key).
  rewrite (for_each_cons _ _ (cfb_decrypt_body_step key)).
  destruct (encrypt_block _ key); reflexivity.
Qed.

Lemma cbc_encrypt_nil (key iv : Z) : cbc_encrypt [] key iv = Ok [].
Proof. reflexivity. Qed.

Lemma cbc_decrypt_nil (key iv : Z) : cbc_decrypt [] key iv = Ok [].
Proof. reflexivity. Qed.

Lemma cfb_encrypt_nil (key iv : Z) : cfb_encrypt [] key iv = Ok [].
Proof. reflexivity. Qed.

Lemma cfb_decrypt_nil (key iv : Z) : cfb_decrypt [] key iv = Ok [].
Proof. reflexivity. Qed.

(** X10: encrypting a concatenation is encrypting the first part and then the
    second part chained from the last ciphertext block of the first (from the
    IV when the first part is empty); this holds for CBC and CFB, errors
    included. *)
Theorem encrypt_modes_compose (xs ys : list Z) (key iv : Z) :
  cbc_encrypt (xs ++ ys) key iv
  = (cs1 <- cbc_encrypt xs key iv ;;
     cs2 <- cbc_encrypt ys key (last cs1 iv) ;;
     Ok (cs1 ++ cs2))
  /\ cfb_encrypt (xs ++ ys) key iv
     = (cs1 <- cfb_encrypt xs key iv ;;
        cs2 <- cfb_encrypt ys key (last cs1 iv) ;;
        Ok (cs1 ++ cs2)).
Proof.
  split; revert iv; induction xs as [|x xs IH]; intros iv.
  - rewrite cbc_encrypt_nil. cbn [app bind last].
    destruct (cbc_encrypt ys key iv); reflexivity.
  - cbn [app]. rewrite !cbc_encrypt_cons.
    destruct (encrypt_block _ key) as [c|e]; cbn [bind]; [|reflexivity].
    rewrite IH.
    destruct (cbc_encrypt xs key c) as [cs1|e]; cbn [bind]; [|reflexivity].
    rewrite last_cons_default.
    destruct (cbc_encrypt ys key (last cs1 c)); reflexivity.
  - rewrite cfb_encrypt_nil. cbn [app bind last].
    destruct (cfb_encrypt ys key iv); reflexivity.
  - cbn [app]. rewrite !cfb_encrypt_cons.
    destruct (encrypt_block _ key) as [ks|e]; cbn [bind]; [|reflexivity].
    rewrite IH.
    destruct (cfb_encrypt xs key (Z.lxor x ks)) as [cs1|e]; cbn [bind];
      [|reflexivity].
    rewrite last_cons_default.
    destruct (cfb_encrypt ys key (last cs1 (Z.lxor x ks))); reflexivity.
Qed.

(** X11: decrypting a concatenation is decrypting the first part and then the
    second part chained from the last ciphertext block of the first part (from
    the IV when it is empty); this holds for CBC and CFB, errors included. *)
Theorem decrypt_modes_compose (xs ys : list Z) (key iv : Z) :
  cbc_decrypt (xs ++ ys) key iv
  = (ps1 <- cbc_decrypt xs key iv ;;
     ps2 <- cbc_decrypt ys key (last xs iv) ;;
     Ok (ps1 ++ ps2))
  /\ cfb_decrypt (xs ++ ys) key iv
     = (ps1 <- cfb_decrypt xs key iv ;;
        ps2 <- cfb_decrypt ys key (last xs iv) ;;
        Ok (ps1 ++ ps2)).
Proof.
  split; revert iv; induction xs as [|x xs IH]; intros iv.
  - rewrite cbc_decrypt_nil. cbn [app bind last].
    destruct (cbc_decrypt ys key iv); reflexivity.
  - cbn [app]. rewrite !cbc_decrypt_cons.
    destruct (decrypt_block x key) as [d|e]; cbn [bind]; [|reflexivity].
    rewrite IH, last_cons_default.
    destruct (cbc_decrypt xs key x) as [ps1|e]; cbn [bind]; [|reflexivity].
    destruct (cbc_decrypt ys key (last xs x)); reflexivity.
  - rewrite cfb_decrypt_nil. cbn [app bind last].
    destruct (cfb_decrypt ys key iv); reflexivity.
  - cbn [app]. rewrite !cfb_decrypt_cons.
    destruct (encrypt_block iv key) as [ks|e]; cbn [bind]; [|reflexivity].
    rewrite IH, last_cons_default.
    destruct (cfb_decrypt xs key x) as [ps1|e]; cbn [bind]; [|reflexivity].
    destruct (cfb_decrypt ys key (last xs x)); reflexivity.
Qed.

Section Keyed.

Variable key : Z.
Hypothesis key_width : in_width 128 key.

Lemma encrypt_ok (b : Z) : exists c, encrypt_block b key = Ok c /\ in_width 128 c.
Proof. apply (encrypt_block_ok blake2s blake2s_digest_size), key_width. Qed.

Lemma decrypt_ok (b : Z) : exists p, decrypt_block b key = Ok p /\ in_width 128 p.
Proof. apply (decrypt_block_ok blake2s blake2s_digest_size), key_width. Qed.

(** CBC, block by block. *)
Lemma cbc_decrypt_nth (cs : list Z) :
  forall iv i c, nth_error cs i = Some c ->
    exists ps d,
      cbc_decrypt cs key iv = Ok ps /\ decrypt_block c key = Ok d
      /\ nth_error ps i
         = Some (Z.lxor d (match i with O => iv | S j => nth j cs 0 end)).
Proof.
  induction cs as [|c0 cs IH]; intros iv i c Hnth;
    [destruct i; discriminate Hnth|].
  rewrite cbc_decrypt_cons.
  destruct (decrypt_ok c0) as [d0 [D0 _]]. rewrite D0. cbn [bind].
  destruct i as [|j].
  - injection Hnth as <-.
    destruct (cbc_decrypt_total blake2s blake2s_digest_size key key_width cs c0)
      as [ps [E _]].
    rewrite E. exists (Z.lxor d0 iv :: ps), d0. auto.
  - destruct (IH c0 j c Hnth) as [ps [d [E [D N]]]].
    rewrite E. exists (Z.lxor d0 iv :: ps), d. cbn [bind nth_error].
    split; [reflexivity|]. split; [exact D|]. rewrite N.
    destruct j; reflexivity.
Qed.

Lemma cbc_encrypt_nth (blocks : list Z) :
  forall iv i p, nth_error blocks i = Some p ->
    exists cs c,
      cbc_encrypt blocks key iv = Ok cs /\ nth_error cs i = Some c
      /\ encrypt_block
           (Z.lxor p (match i with O => iv | S j => nth j cs 0 end)) key
         = Ok c.
Proof.
  induction blocks as [|p0 blocks IH]; intros iv i p Hnth;
    [destruct i; discriminate Hnth|].
  rewrite cbc_encrypt_cons.
  destruct (encrypt_ok (Z.lxor p0 iv)) as [c0 [E0 _]]. rewrite E0. cbn [bind].
  destruct i as [|j].
  - injection Hnth as <-.
    destruct (cbc_encrypt_total blake2s blake2s_digest_size key key_width blocks c0)
      as [cs [E _]].
    rewrite E. exists (c0 :: cs), c0. auto.
  - destruct (IH c0 j p Hnth) as [cs [c [E [N Ec]]]].
    rewrite E. exists (c0 :: cs), c. cbn [bind nth_error].
    split; [reflexivity|]. split; [exact N|]. rewrite <- Ec.
    destruct j; reflexivity.
Qed.

(** CFB, block by block. *)
Lemma cfb_decrypt_nth (cs : list Z) :
  forall iv i c, nth_error cs i = Some c ->
    exists ps ks,
      cfb_decrypt cs key iv = Ok ps
      /\ encrypt_block (match i with O => iv | S j => nth j cs 0 end) key = Ok ks
      /\ nth_error ps i = Some (Z.lxor c ks).
Proof.
  induction cs as [|c0 cs IH]; intros iv i c Hnth;
    [destruct i; discriminate Hnth|].
  rewrite cfb_decrypt_cons.
  destruct (encrypt_ok iv) as [k0 [K0 _]]. rewrite K0. cbn [bind].
  destruct i as [|j].
  - injection Hnth as <-.
    destruct (cfb_decrypt_total blake2s blake2s_digest_size key key_width cs c0)
      as [ps [E _]].
    rewrite E. exists (Z.lxor c0 k0 :: ps), k0. auto.
  - destruct (IH c0 j c Hnth) as [ps [ks [E [K N]]]].
    rewrite E. exists (Z.lxor c0 k0 :: ps), ks. cbn [bind nth_error].
    split; [reflexivity|]. split; [|exact N]. rewrite <- K.
    destruct j; reflexivity.
Qed.

Lemma cfb_encrypt_nth (blocks : list Z) :
  forall iv i p, nth_error blocks i = Some p ->
    exists cs ks,
      cfb_encrypt blocks key iv = Ok cs
      /\ encrypt_block (match i with O => iv | S j => nth j cs 0 end) key = Ok ks
      /\ nth_error cs i = Some (Z.lxor p ks).
Proof.
  induction blocks as [|p0 blocks IH]; intros iv i p Hnth;
    [destruct i; discriminate Hnth|].
  rewrite cfb_encrypt_cons.
  destruct (encrypt_ok iv) as [k0 [K0 _]]. rewrite K0. cbn [bind].
  destruct i as [|j].
  - injection Hnth as <-.
    destruct (cfb_encrypt_total blake2s blake2s_digest_size key key_width blocks
                (Z.lxor p0 k0)) as [cs [E _]].
    rewrite E. exists (Z.lxor p0 k0 :: cs), k0. auto.
  - destruct (IH (Z.lxor p0 k0) j p Hnth) as [cs [ks [E [K N]]]].
    rewrite E. exists (Z.lxor p0 k0 :: cs), ks. cbn [bind nth_error].
    split; [reflexivity|]. split; [|exact N]. rewrite <- K.
    destruct j; reflexivity.
Qed.

(** Encrypting what CBC decryption returned gives the ciphertext back. *)
Lemma cbc_encrypt_decrypt (cs : list Z) :
  Forall (in_width 128) cs ->
  forall iv, (ps <- cbc_decrypt cs key iv ;; cbc_encrypt ps key iv) = Ok cs.
Proof.
  induction 1 as [|c cs Hc Hcs IH]; intros iv; [reflexivity|].
  rewrite cbc_decrypt_cons.
  pose proof (encrypt_decrypt_block blake2s blake2s_digest_size c key key_width Hc)
    as ED.
  destruct (decrypt_ok c) as [d [D _]]. rewrite D in ED |- *. cbn [bind] in ED |- *.
  specialize (IH c).
  destruct (cbc_decrypt cs key c) as [ps|e]; cbn [bind] in IH |- *;
    [|discriminate IH].
  rewrite cbc_encrypt_cons, lxor_cancel_r, ED. cbn [bind]. rewrite IH. reflexivity.
Qed.

Lemma cfb_encrypt_decrypt (cs : list Z) :
  forall iv, (ps <- cfb_decrypt cs key iv ;; cfb_encrypt ps key iv) = Ok cs.
Proof.
  induction cs as [|c cs IH]; intros iv; [reflexivity|].
  rewrite cfb_decrypt_cons.
  destruct (encrypt_ok iv) as [ks [K _]]. rewrite K. cbn [bind].
  specialize (IH c).
  destruct (cfb_decrypt cs key c) as [ps|e]; cbn [bind] in IH |- *;
    [|discriminate IH].
  rewrite cfb_encrypt_cons, K. cbn [bind]. rewrite lxor_cancel_r, IH. reflexivity.
Qed.

End Keyed.

(** X12: with a 128-bit key CBC works block by block.  Ciphertext block i is
    [encrypt_block] of plaintext block i XOR the previous ciphertext block (the
    IV for i = 0); plaintext block i is [decrypt_block] of ciphertext block i
    XOR the previous ciphertext block (the IV for i = 0), so it depends on
    two ciphertext blocks only. *)
Theorem cbc_blockwise (blocks : list Z) (key iv : Z) (i : nat) (b : Z) :
  0 <= key < 2 ^ 128 -> nth_error blocks i = Some b ->
  (exists cs c,
     cbc_encrypt blocks key iv = Ok cs /\ nth_error cs i = Some c
     /\ encrypt_block
          (Z.lxor b (match i with O => iv | S j => nth j cs 0 end)) key = Ok c)
  /\ (exists ps d,
        cbc_decrypt blocks key iv = Ok ps /\ decrypt_block b key = Ok d
        /\ nth_error ps i
           = Some (Z.lxor d (match i with O => iv | S j => nth j blocks 0 end))).
Proof.
  intros Hk Hnth. split.
  - apply cbc_encrypt_nth; assumption.
  - apply cbc_decrypt_nth; assumption.
Qed.

(** X13: with a 128-bit key CFB works block by block.  Output block i, in both
    directions, is input block i XOR [encrypt_block] of the previous
    ciphertext block (the IV for i = 0). *)
Theorem cfb_blockwise (blocks : list Z) (key iv : Z) (i : nat) (b : Z) :
  0 <= key < 2 ^ 128 -> nth_error blocks i = Some b ->
  (exists cs ks,
     cfb_encrypt blocks key iv = Ok cs
     /\ encrypt_block (match i with O => iv | S j => nth j cs 0 end) key = Ok ks
     /\ nth_error cs i = Some (Z.lxor b ks))
  /\ (exists ps ks,
        cfb_decrypt blocks key iv = Ok ps
        /\ encrypt_block (match i with O => iv | S j => nth j blocks 0 end) key
           = Ok ks
        /\ nth_error ps i = Some (Z.lxor b ks)).
Proof.
  intros Hk Hnth. split.
  - apply cfb_encrypt_nth; assumption.
  - apply cfb_decrypt_nth; assumption.
Qed.

(** X14: a damaged first ciphertext block or IV is not felt beyond the second
    plaintext block: with a 128-bit key, the plaintext that [cbc_decrypt] and
    [cfb_decrypt] return from the third block on is the same whatever the
    first ciphertext block and the IV are. *)
Theorem corruption_is_confined (key c1 : Z) (rest : list Z) :
  0 <= key < 2 ^ 128 ->
  exists cbc_tail cfb_tail,
    List.length cbc_tail = List.length rest
    /\ List.length cfb_tail = List.length rest
    /\ forall c0 iv,
        exists p0 p1 q0 q1,
          cbc_decrypt (c0 :: c1 :: rest) key iv = Ok (p0 :: p1 :: cbc_tail)
          /\ cfb_decrypt (c0 :: c1 :: rest) key iv = Ok (q0 :: q1 :: cfb_tail).
Proof.
  intros Hk.
  destruct (cbc_decrypt_total blake2s blake2s_digest_size key Hk rest c1)
    as [t1 [E1 L1]].
  destruct (cfb_decrypt_total blake2s blake2s_digest_size key Hk rest c1)
    as [t2 [E2 L2]].
  exists t1, t2. split; [exact L1|]. split; [exact L2|]. intros c0 iv.
  rewrite !cbc_decrypt_cons, !cfb_decrypt_cons, E1, E2.
  destruct (decrypt_ok key Hk c0) as [d0 [D0 _]].
  destruct (decrypt_ok key Hk c1) as [d1 [D1 _]].
  destruct (encrypt_ok key Hk iv) as [k0 [K0 _]].
  destruct (encrypt_ok key Hk c0) as [k1 [K1 _]].
  rewrite D0, D1, K0, K1. cbn [bind]. eauto 8.
Qed.

(** X15: with a 128-bit key, CBC encryption undoes CBC decryption: for
    ciphertext blocks in [0, 2^128) and any integer IV,
    [cbc_encrypt(cbc_decrypt(cs, key, iv), key, iv)] returns [cs]. *)
Theorem cbc_encrypt_after_decrypt (cs : list Z) (key iv : Z) :
  0 <= key < 2 ^ 128 -> Forall (fun c => 0 <= c < 2 ^ 128) cs ->
  (ps <- cbc_decrypt cs key iv ;; cbc_encrypt ps key iv) = Ok cs.
Proof.
  intros Hk Hcs. apply cbc_encrypt_decrypt; assumption.
Qed.

(** X16: with a 128-bit key, CFB needs no bound on the blocks or the IV:
    on sequences of arbitrary integers (negative or wider than 128 bits)
    [cfb_decrypt] undoes [cfb_encrypt] and [cfb_encrypt] undoes
    [cfb_decrypt]. *)
Theorem cfb_inverse_on_integers (blocks : list Z) (key iv : Z) :
  0 <= key < 2 ^ 128 ->
  (cs <- cfb_encrypt blocks key iv ;; cfb_decrypt cs key iv) = Ok blocks
  /\ (ps <- cfb_decrypt blocks key iv ;; cfb_encrypt ps key iv) = Ok blocks.
Proof.
  intros Hk. split.
  - destruct (cfb_round_trip blake2s blake2s_digest_size key Hk blocks iv)
      as [cs [E D]].
    rewrite E. exact D.
  - apply cfb_encrypt_decrypt, Hk.
Qed.

(** X17: with a key outside [0, 2^128), every mode wrapper and both analyzers
    raise [OverflowError] as soon as there is a block to process. *)
Theorem wide_key_overflows (blocks : list Z) (key iv : Z) :
  ~ (0 <= key < 2 ^ 128) -> blocks <> [] ->
  cbc_encrypt blocks key iv = Raise OverflowError
  /\ cbc_decrypt blocks key iv = Raise OverflowError
  /\ cfb_encrypt blocks key iv = Raise OverflowError
  /\ cfb_decrypt blocks key iv = Raise OverflowError
  /\ analyze_cbc key iv blocks = Raise OverflowError
  /\ analyze_cfb key iv blocks = Raise OverflowError.
Proof.
  intros Hk Hne. destruct blocks as [|b blocks]; [congruence|].
  assert (E : forall x, encrypt_block x key = Raise OverflowError)
    by (intros x; apply (block_primitives_wide_key blake2s x key Hk)).
  assert (D : forall x, decrypt_block x key = Raise OverflowError)
    by (intros x; apply (block_primitives_wide_key blake2s x key Hk)).
  assert (E1 : cbc_encrypt (b :: blocks) key iv = Raise OverflowError)
    by (rewrite cbc_encrypt_cons, E; reflexivity).
  assert (E2 : cfb_encrypt (b :: blocks) key iv = Raise OverflowError)
    by (rewrite cfb_encrypt_cons, E; reflexivity).
  split; [exact E1|].
  split; [rewrite cbc_decrypt_cons, D; reflexivity|].
  split; [exact E2|].
  split; [rewrite cfb_decrypt_cons, E; reflexivity|].
  unfold_analyze. rewrite E1, E2. split; reflexivity.
Qed.

(** X18: with a 128-bit key, each of the four mode wrappers raises nothing on
    any sequence of integers and returns as many blocks as it was given. *)
Theorem modes_preserve_length (blocks : list Z) (key iv : Z) :
  0 <= key < 2 ^ 128 ->
  (exists cs, cbc_encrypt blocks key iv = Ok cs
              /\ List.length cs = List.length blocks)
  /\ (exists ps, cbc_decrypt blocks key iv = Ok ps
                 /\ List.length ps = List.length blocks)
  /\ (exists cs, cfb_encrypt blocks key iv = Ok cs
                 /\ List.length cs = List.length blocks)
  /\ (exists ps, cfb_decrypt blocks key iv = Ok ps
                 /\ List.length ps = List.length blocks).
Proof.
  intros Hk.
  split; [apply (cbc_encrypt_total blake2s blake2s_digest_size key Hk)|].
  split; [apply (cbc_decrypt_total blake2s blake2s_digest_size key Hk)|].
  split; [apply (cfb_encrypt_total blake2s blake2s_digest_size key Hk)|].
  apply (cfb_decrypt_total blake2s blake2s_digest_size key Hk).
Qed.

Lemma flip_changes_block (c : Z) : c <> Z.lxor c (Z.shiftl 1 BIT_TO_FLIP).
Proof.
  intros H. apply (f_equal (Z.lxor c)) in H.
  rewrite Z.lxor_nilpotent, <- Z.lxor_assoc, Z.lxor_nilpotent, Z.lxor_0_l in H.
  discriminate H.
Qed.

Lemma flip_changes_residue (c : Z) :
  c mod 2 ^ 128 <> Z.lxor c (Z.shiftl 1 BIT_TO_FLIP) mod 2 ^ 128.
Proof.
  intros H. apply (f_equal (fun z => Z.testbit z 17)) in H.
  rewrite !testbit_mod_block, Z.lxor_spec in H by lia.
  change (Z.testbit (Z.shiftl 1 BIT_TO_FLIP) 17) with true in H.
  destruct (Z.testbit c 17); discriminate H.
Qed.

Lemma flip_mask_in_block : in_width 128 (Z.shiftl 1 BIT_TO_FLIP).
Proof. by_computation. Qed.

(** X19: with a 128-bit key, for any integer IV and any two or more integer
    blocks, both analyzers return a report with bit index 17.  The CBC report
    has [p2_diff] = 1 and [p1_diff] between 1 and 128; the CFB report has
    [p1_diff] = 1 and [p2_diff] between 1 and 128. *)
Theorem analyze_reports_bounds (key iv p1 p2 : Z) (rest : list Z) :
  0 <= key < 2 ^ 128 ->
  (exists report,
     analyze_cbc key iv (p1 :: p2 :: rest) = Ok report
     /\ mode report = "CBC mode"%string /\ bit_flip_index report = 17
     /\ p2_diff report = 1 /\ 1 <= p1_diff report <= 128)
  /\ (exists report,
        analyze_cfb key iv (p1 :: p2 :: rest) = Ok report
        /\ mode report = "CFB mode"%string /\ bit_flip_index report = 17
        /\ p1_diff report = 1 /\ 1 <= p2_diff report <= 128).
Proof.
  intros Hk. split.
  - destruct (encrypt_ok key Hk (Z.lxor p1 iv)) as [c0 [E0 W0]].
    destruct (encrypt_ok key Hk (Z.lxor p2 c0)) as [c1 [E1 _]].
    destruct (cbc_encrypt_total blake2s blake2s_digest_size key Hk rest c1)
      as [cs [Ecs _]].
    assert (Eenc : cbc_encrypt (p1 :: p2 :: rest) key iv = Ok (c0 :: c1 :: cs))
      by (rewrite cbc_encrypt_cons, E0; cbn [bind];
          rewrite cbc_encrypt_cons, E1; cbn [bind]; rewrite Ecs; reflexivity).
    destruct (decrypt_ok key Hk c0) as [d0 [D0 Wd0]].
    destruct (decrypt_ok key Hk c1) as [d1 [D1 _]].
    destruct (cbc_decrypt_total blake2s blake2s_digest_size key Hk cs c1)
      as [ps [Eps _]].
    assert (Edec : cbc_decrypt (c0 :: c1 :: cs) key iv
                   = Ok (Z.lxor d0 iv :: Z.lxor d1 c0 :: ps))
      by (rewrite !cbc_decrypt_cons, D0; cbn [bind]; rewrite D1; cbn [bind];
          rewrite Eps; reflexivity).
    destruct (decrypt_ok key Hk (Z.lxor c0 (Z.shiftl 1 BIT_TO_FLIP)))
      as [e0 [F0 We0]].
    assert (Ecorr : cbc_decrypt [Z.lxor c0 (Z.shiftl 1 BIT_TO_FLIP); c1] key iv
                    = Ok [Z.lxor e0 iv;
                          Z.lxor d1 (Z.lxor c0 (Z.shiftl 1 BIT_TO_FLIP))])
      by (rewrite !cbc_decrypt_cons, F0; cbn [bind]; rewrite D1; cbn [bind];
          rewrite cbc_decrypt_nil; reflexivity).
    rewrite (analyze_cbc_from blake2s key iv _ c0 c1 _ _ cs ps Eenc Edec), Ecorr.
    cbn [bind Py.getitem nth_error]. eexists. split; [reflexivity|].
    cbn [mode bit_flip_index p1_diff p2_diff].
    split; [reflexivity|]. split; [reflexivity|]. unfold bit_diff. split.
    + rewrite lxor_flip_chain. reflexivity.
    + rewrite lxor_common_r. apply bit_diff_distinct_blocks; [exact Wd0 | exact We0 |].
      apply (decrypt_block_distinct blake2s blake2s_digest_size
               c0 (Z.lxor c0 (Z.shiftl 1 BIT_TO_FLIP)) key d0 e0);
        [exact Hk | exact W0 | | apply flip_changes_block | exact D0 | exact F0].
      apply in_width_lxor; [lia | exact W0 | apply flip_mask_in_block].
  - destruct (encrypt_ok key Hk iv) as [k0 [K0 _]].
    destruct (encrypt_ok key Hk (Z.lxor p1 k0)) as [k1 [K1 Wk1]].
    destruct (cfb_encrypt_total blake2s blake2s_digest_size key Hk rest
                (Z.lxor p2 k1)) as [cs [Ecs _]].
    assert (Eenc : cfb_encrypt (p1 :: p2 :: rest) key iv
                   = Ok (Z.lxor p1 k0 :: Z.lxor p2 k1 :: cs))
      by (rewrite cfb_encrypt_cons, K0; cbn [bind];
          rewrite cfb_encrypt_cons, K1; cbn [bind]; rewrite Ecs; reflexivity).
    destruct (cfb_decrypt_total blake2s blake2s_digest_size key Hk cs
                (Z.lxor p2 k1)) as [ps [Eps _]].
    assert (Edec : cfb_decrypt (Z.lxor p1 k0 :: Z.lxor p2 k1 :: cs) key iv
                   = Ok (Z.lxor (Z.lxor p1 k0) k0
                         :: Z.lxor (Z.lxor p2 k1) k1 :: ps))
      by (rewrite !cfb_decrypt_cons, K0; cbn [bind]; rewrite K1; cbn [bind];
          rewrite Eps; reflexivity).
    destruct (encrypt_ok key Hk (Z.lxor (Z.lxor p1 k0) (Z.shiftl 1 BIT_TO_FLIP)))
      as [j1 [J1 Wj1]].
    assert (Ecorr : cfb_decrypt
                      [Z.lxor (Z.lxor p1 k0) (Z.shiftl 1 BIT_TO_FLIP);
                       Z.lxor p2 k1] key iv
                    = Ok [Z.lxor (Z.lxor (Z.lxor p1 k0) (Z.shiftl 1 BIT_TO_FLIP)) k0;
                          Z.lxor (Z.lxor p2 k1) j1])
      by (rewrite !cfb_decrypt_cons, K0; cbn [bind]; rewrite J1; cbn [bind];
          rewrite cfb_decrypt_nil; reflexivity).
    rewrite (analyze_cfb_from blake2s key iv _ _ _ _ _ cs ps Eenc Edec), Ecorr.
    cbn [bind Py.getitem nth_error]. eexists. split; [reflexivity|].
    cbn [mode bit_flip_index p1_diff p2_diff].
    split; [reflexivity|]. split; [reflexivity|]. unfold bit_diff. split.
    + rewrite lxor_flip_stream. reflexivity.
    + rewrite lxor_common_l. apply bit_diff_distinct_blocks; [exact Wk1 | exact Wj1 |].
      apply (encrypt_block_distinct blake2s blake2s_digest_size
               (Z.lxor p1 k0) (Z.lxor (Z.lxor p1 k0) (Z.shiftl 1 BIT_TO_FLIP))
               key k1 j1);
        [exact Hk | apply flip_changes_residue | exact K1 | exact J1].
Qed.

End Task3_Chaining.

(** ** More on [to_block] *)

Lemma byte_val_of_Z (z : Z) : 0 <= z < 256 -> Py.byte_val (Py.byte_of_Z z) = z.
Proof.
  intros Hz. unfold Py.byte_val, Py.byte_of_Z. rewrite Z.mod_small by exact Hz.
  destruct (Byte.of_N (Z.to_N z)) as [b|] eqn:E.
  - apply Byte.to_of_N in E. rewrite E. lia.
  - apply Byte.of_N_None_iff in E. lia.
Qed.

Lemma int_from_bytes_app (xs ys : list byte) :
  Py.int_from_bytes (xs ++ ys)
  = fold_left (fun acc b => acc * 256 + Py.byte_val b) ys (Py.int_from_bytes xs).
Proof. unfold Py.int_from_bytes. apply fold_left_app. Qed.

(** Zero bytes on the right shift the value left, eight bits each. *)
Lemma int_from_bytes_zeros (data : list byte) (k : nat) :
  Py.int_from_bytes (data ++ repeat x00 k)
  = Z.shiftl (Py.int_from_bytes data) (8 * Z.of_nat k).
Proof.
  rewrite int_from_bytes_app. generalize (Py.int_from_bytes data) as v.
  induction k as [|k IH]; intros v.
  - cbn [repeat fold_left]. rewrite Z.shiftl_0_r. reflexivity.
  - cbn [repeat fold_left]. rewrite IH.
    change (Py.byte_val x00) with 0. rewrite Z.add_0_r.
    rewrite !Z.shiftl_mul_pow2 by lia.
    replace (8 * Z.of_nat (S k)) with (8 + 8 * Z.of_nat k) by lia.
    rewrite Z.pow_add_r by lia. change (2 ^ 8) with 256. ring.
Qed.

Lemma encode_raises_unicode (c : N) (e : exn) :
  Py.encode_code_point c = Raise e -> e = UnicodeEncodeError.
Proof.
  unfold Py.encode_code_point.
  repeat match goal with
         | |- context [if ?b then _ else _] => destruct b
         end; intros H; try discriminate H; injection H as <-; reflexivity.
Qed.

Lemma encode_surrogate (c : N) :
  (0xD800 <= c <= 0xDFFF)%N -> Py.encode_code_point c = Raise UnicodeEncodeError.
Proof.
  intros H. unfold Py.encode_code_point.
  destruct (N.ltb_spec c 0x80); [lia|].
  destruct (N.ltb_spec c 0x800); [lia|].
  destruct (N.ltb_spec c 0x10000); [|lia].
  destruct (N.leb_spec 0xD800 c); [|lia].
  destruct (N.leb_spec c 0xDFFF); [reflexivity | lia].
Qed.

Lemma encode_loop_surrogate (text : Py.str) (c : N) :
  In c text -> (0xD800 <= c <= 0xDFFF)%N ->
  forall acc,
    for_each text
      (fun acc c => bs <- Py.encode_code_point c ;; Ok (acc ++ bs)) acc
    = Raise UnicodeEncodeError.
Proof.
  intros Hin Hc. induction text as [|x text IH]; intros acc; [destruct Hin|].
  cbn [for_each].
  destruct (Py.encode_code_point x) as [bs|e] eqn:E; cbn [bind].
  - destruct Hin as [->|Hin]; [|apply IH, Hin].
    rewrite (encode_surrogate c Hc) in E. discriminate E.
  - rewrite (encode_raises_unicode x e E). reflexivity.
Qed.

Lemma encode_loop_ascii (text : Py.str) :
  Forall (fun c => (c < 0x80)%N) text ->
  forall acc,
    for_each text
      (fun acc c => bs <- Py.encode_code_point c ;; Ok (acc ++ bs)) acc
    = Ok (acc ++ map (fun c => Py.byte_of_Z (Z.of_N c)) text).
Proof.
  induction 1 as [|c text Hc Htext IH]; intros acc.
  - cbn [for_each map]. rewrite app_nil_r. reflexivity.
  - cbn [for_each map]. unfold Py.encode_code_point at 1.
    destruct (N.ltb_spec c 0x80); [|lia]. cbn [bind].
    rewrite IH, <- app_assoc. reflexivity.
Qed.

Lemma int_from_ascii_bytes (text : Py.str) :
  Forall (fun c => (c < 0x80)%N) text ->
  forall v,
    fold_left (fun acc b => acc * 256 + Py.byte_val b)
              (map (fun c => Py.byte_of_Z (Z.of_N c)) text) v
    = fold_left (fun acc c => acc * 256 + Z.of_N c) text v.
Proof.
  induction 1 as [|c text Hc Htext IH]; intros v; [reflexivity|].
  cbn [map fold_left]. rewrite byte_val_of_Z by lia. apply IH.
Qed.

(** X20: when the text holds a surrogate code point (U+D800 to U+DFFF),
    [to_block] raises [UnicodeEncodeError], however short or long the text
    is. *)
Theorem to_block_surrogate (text : Py.str) (c : N) :
  In c text -> (0xD800 <= c <= 0xDFFF)%N ->
  to_block text = Raise UnicodeEncodeError.
Proof.
  intros Hin Hc. unfold to_block, Py.str_encode_utf8.
  rewrite (encode_loop_surrogate text c Hin Hc). reflexivity.
Qed.

(** X21: on ASCII text (every code point below 0x80) [to_block] raises
    [ValueError] when the text has more than 16 characters; otherwise it
    returns the characters read as base-256 digits, most significant first,
    shifted left by eight bits for each character short of 16. *)
Theorem to_block_ascii (text : Py.str) :
  Forall (fun c => (c < 0x80)%N) text ->
  ((16 < List.length text)%nat ->
     to_block text = Raise (ValueError "Plaintext block must be <= 16 bytes"))
  /\ ((List.length text <= 16)%nat ->
      to_block text
      = Ok (Z.shiftl (fold_left (fun acc c => acc * 256 + Z.of_N c) text 0)
                     (8 * Z.of_nat (16 - List.length text)))).
Proof.
  intros Hascii. unfold to_block, Py.str_encode_utf8.
  rewrite (encode_loop_ascii text Hascii []). cbn [bind app].
  rewrite length_map. split; intros Hlen.
  - destruct (Nat.ltb_spec 16 (List.length text)); [reflexivity | lia].
  - destruct (Nat.ltb_spec 16 (List.length text)); [lia|].
    unfold Py.bytes_ljust. rewrite int_from_bytes_zeros, length_map.
    unfold Py.int_from_bytes. rewrite (int_from_ascii_bytes text Hascii 0).
    reflexivity.
Qed.

Lemma to_block_shift (text : Py.str) (data : list byte) :
  Py.str_encode_utf8 text = Ok data -> (List.length data <= 16)%nat ->
  to_block text
  = Ok (Z.shiftl (Py.int_from_bytes data) (8 * Z.of_nat (16 - List.length data))).
Proof.
  intros E Hlen. unfold to_block. rewrite E. cbn [bind].
  destruct (Nat.ltb_spec 16 (List.length data)); [lia|].
  unfold Py.bytes_ljust. rewrite int_from_bytes_zeros. reflexivity.
Qed.

(** X22: zero padding cannot be told from NUL characters: for a text whose
    UTF-8 encoding takes fewer than 16 bytes, appending U+0000 to the text
    does not change what [to_block] returns. *)
Theorem to_block_trailing_nul (text : Py.str) (data : list byte) :
  Py.str_encode_utf8 text = Ok data -> (List.length data < 16)%nat ->
  to_block (text ++ [0%N]) = to_block text.
Proof.
  intros E Hlen.
  assert (E' : Py.str_encode_utf8 (text ++ [0%N]) = Ok (data ++ [x00])).
  { unfold Py.str_encode_utf8 in *. rewrite for_each_app, E. reflexivity. }
  rewrite (to_block_shift text data E) by lia.
  rewrite (to_block_shift (text ++ [0%N]) (data ++ [x00]) E')
    by (rewrite length_app; cbn [List.length]; lia).
  f_equal. rewrite length_app. cbn [List.length].
  change (data ++ [x00]) with (data ++ repeat x00 1).
  rewrite int_from_bytes_zeros, Z.shiftl_shiftl by lia.
  f_equal. lia.
Qed.

(** ** [int_to_hex] *)

Lemma hex_alphabet_nodup : NoDup hex_alphabet.
Proof.
  unfold hex_alphabet. cbn [list_ascii_of_string].
  repeat (constructor; [cbn [In]; intuition discriminate|]). constructor.
Qed.

Lemma hex_digit_inj (x y : Z) :
  0 <= x < 16 -> 0 <= y < 16 -> hex_digit x = hex_digit y -> x = y.
Proof.
  intros Hx Hy H. unfold hex_digit in H.
  pose proof hex_alphabet_nodup as ND.
  rewrite (NoDup_nth hex_alphabet "0"%char) in ND.
  assert (Z.to_nat x = Z.to_nat y).
  { apply ND; [| | exact H]; change (List.length hex_alphabet) with 16%nat; lia. }
  lia.
Qed.

Lemma fixed_hex_length (k : nat) : forall n, List.length (fixed_hex k n) = k.
Proof.
  induction k as [|k IH]; intros n; [reflexivity|].
  cbn [fixed_hex]. rewrite length_app, IH. cbn [List.length]. lia.
Qed.

Lemma fixed_hex_zero (k : nat) : fixed_hex k 0 = repeat "0"%char k.
Proof.
  induction k as [|k IH]; [reflexivity|].
  cbn [fixed_hex]. change (0 / 16) with 0. rewrite IH.
  change [hex_digit (0 mod 16)] with (repeat "0"%char 1).
  rewrite <- repeat_app. f_equal. lia.
Qed.

(** Digits beyond the size of the number are zeros. *)
Lemma fixed_hex_small (m : nat) :
  forall n k, 0 <= n < 16 ^ Z.of_nat m ->
    fixed_hex (k + m) n = repeat "0"%char k ++ fixed_hex m n.
Proof.
  induction m as [|m IH]; intros n k Hn.
  - cbn in Hn. assert (n = 0) by lia. subst n.
    rewrite Nat.add_0_r, fixed_hex_zero. cbn [fixed_hex]. rewrite app_nil_r.
    reflexivity.
  - rewrite Nat.add_succ_r. cbn [fixed_hex]. rewrite IH, <- app_assoc; [reflexivity|].
    rewrite Nat2Z.inj_succ, Z.pow_succ_r in Hn by lia.
    split; [apply Z.div_pos; lia | apply Z.div_lt_upper_bound; lia].
Qed.

Lemma fixed_hex_inj (k : nat) :
  forall a b, fixed_hex k a = fixed_hex k b ->
    a mod 16 ^ Z.of_nat k = b mod 16 ^ Z.of_nat k.
Proof.
  induction k as [|k IH]; intros a b H.
  - cbn. rewrite !Z.mod_1_r. reflexivity.
  - cbn [fixed_hex] in H. apply app_inj_tail in H. destruct H as [Hhi Hlo].
    apply IH in Hhi.
    apply hex_digit_inj in Hlo; try (apply Z.mod_pos_bound; lia).
    rewrite Nat2Z.inj_succ, Z.pow_succ_r by lia.
    rewrite !(Z.rem_mul_r _ 16) by (try apply Z.pow_pos_nonneg; lia).
    rewrite Hhi, Hlo. reflexivity.
Qed.

Lemma hex_digits_step (fuel : nat) (n : Z) (acc : list ascii) :
  hex_digits (S fuel) n acc
  = if n / 16 =? 0 then hex_digit (n mod 16) :: acc
    else hex_digits fuel (n / 16) (hex_digit (n mod 16) :: acc).
Proof. reflexivity. Qed.

(** With enough fuel [hex_digits] writes the number with as many digits as it
    has: at least one, and no leading zero unless the number is below 16. *)
Lemma hex_digits_spec (fuel : nat) :
  forall n acc, 0 <= n < 16 ^ Z.of_nat (S fuel) ->
    exists m,
      (1 <= m <= S fuel)%nat
      /\ n < 16 ^ Z.of_nat m
      /\ (m = 1%nat \/ 16 ^ (Z.of_nat m - 1) <= n)
      /\ hex_digits (S fuel) n acc = fixed_hex m n ++ acc.
Proof.
  induction fuel as [|fuel IH]; intros n acc Hn.
  - exists 1%nat. change (16 ^ Z.of_nat 1) with 16 in *.
    split; [lia|]. split; [lia|]. split; [auto|].
    cbn [hex_digits fixed_hex]. destruct (n / 16 =? 0); reflexivity.
  - rewrite (hex_digits_step (S fuel)).
    destruct (Z.eqb_spec (n / 16) 0) as [Hz|Hnz].
    + exists 1%nat. change (16 ^ Z.of_nat 1) with 16.
      assert (n < 16)
        by (destruct (Z.lt_ge_cases n 16); [assumption|];
            assert (1 <= n / 16) by (apply Z.div_le_lower_bound; lia); lia).
      split; [lia|]. split; [assumption|]. split; [auto|]. reflexivity.
    + assert (Hq : 0 <= n / 16 < 16 ^ Z.of_nat (S fuel)).
      { rewrite (Nat2Z.inj_succ (S fuel)), Z.pow_succ_r in Hn by lia.
        split; [apply Z.div_pos; lia | apply Z.div_lt_upper_bound; lia]. }
      destruct (IH (n / 16) (hex_digit (n mod 16) :: acc) Hq)
        as [m [Hm [Hlt [Hmin E]]]].
      exists (S m). split; [lia|].
      assert (Hdiv : 16 * (n / 16) <= n < 16 * (n / 16) + 16)
        by (pose proof (Z.div_mod n 16 ltac:(lia));
            pose proof (Z.mod_pos_bound n 16 ltac:(lia)); lia).
      split; [rewrite Nat2Z.inj_succ, Z.pow_succ_r by lia; lia|].
      split.
      * right. replace (Z.of_nat (S m) - 1) with (Z.succ (Z.of_nat m - 1)) by lia.
        rewrite Z.pow_succ_r by lia.
        destruct Hmin as [->|Hmin]; [change (16 ^ (Z.of_nat 1 - 1)) with 1; lia | lia].
      * rewrite E. cbn [fixed_hex]. rewrite <- app_assoc. reflexivity.
Qed.

Lemma format_x_spec (n : Z) :
  0 <= n ->
  exists m,
    (1 <= m)%nat /\ n < 16 ^ Z.of_nat m
    /\ (m = 1%nat \/ 16 ^ (Z.of_nat m - 1) <= n)
    /\ format_x n = fixed_hex m n.
Proof.
  intros Hn. unfold format_x.
  destruct (hex_digits_spec (Z.to_nat (Z.log2 n)) n []) as [m [Hm [Hlt [Hmin E]]]].
  - split; [exact Hn|].
    rewrite Nat2Z.inj_succ, Z2Nat.id by apply Z.log2_nonneg.
    destruct (Z.eq_dec n 0) as [->|Hnz]; [reflexivity|].
    apply Z.lt_le_trans with (2 ^ Z.succ (Z.log2 n)).
    + apply Z.log2_spec. lia.
    + apply Z.pow_le_mono_l. pose proof (Z.log2_nonneg n). lia.
  - exists m. rewrite app_nil_r in E. repeat split; try assumption; lia.
Qed.

Lemma format_032x_block (block : Z) :
  0 <= block < 2 ^ 128 -> format_032x block = fixed_hex 32 block.
Proof.
  intros Hb. unfold format_032x.
  destruct (Z.ltb_spec block 0); [lia|]. rewrite Z.abs_eq by lia.
  destruct (format_x_spec block) as [m [Hm [Hlt [Hmin E]]]]; [lia|].
  rewrite E, fixed_hex_length. cbn [app List.length].
  assert (m <= 32)%nat.
  { destruct Hmin as [->|Hmin]; [lia|].
    assert (16 ^ (Z.of_nat m - 1) < 16 ^ 32)
      by (change (16 ^ 32) with (2 ^ 128); lia).
    apply Z.pow_lt_mono_r_iff in H0; lia. }
  replace 32%nat with ((32 - m) + m)%nat at 2 by lia.
  rewrite (fixed_hex_small m block (32 - m)) by lia.
  reflexivity.
Qed.

Lemma string_of_list_length (l : list ascii) :
  String.length (string_of_list_ascii l) = List.length l.
Proof. induction l as [|c l IH]; [reflexivity|]. cbn. rewrite IH. reflexivity. Qed.

(** X23: for blocks in [0, 2^128), [int_to_hex] returns "0x" followed by
    exactly 32 characters, 34 in all, and different blocks give different
    strings. *)
Theorem int_to_hex_fixed_width (a b : Z) :
  0 <= a < 2 ^ 128 -> 0 <= b < 2 ^ 128 ->
  String.length (int_to_hex a) = 34%nat
  /\ (exists digits,
        int_to_hex a = String "0" (String "x" digits)
        /\ String.length digits = 32%nat)
  /\ (int_to_hex a = int_to_hex b -> a = b).
Proof.
  intros Ha Hb. unfold int_to_hex.
  rewrite (format_032x_block a Ha), (format_032x_block b Hb).
  split; [|split].
  - rewrite string_of_list_length, length_app, fixed_hex_length. reflexivity.
  - exists (string_of_list_ascii (fixed_hex 32 a)).
    split; [reflexivity|].
    rewrite string_of_list_length. apply fixed_hex_length.
  - intros H. apply (f_equal list_ascii_of_string) in H.
    rewrite !list_ascii_of_string_of_list_ascii in H.
    apply app_inv_head in H. apply fixed_hex_inj in H.
    change (16 ^ Z.of_nat 32) with (2 ^ 128) in H.
    rewrite !Z.mod_small in H by assumption. exact H.
Qed.

(** ** The block primitives as permutations, and the role of the IV *)

Lemma lxor_cancel_l (p x y : Z) : Z.lxor p x = Z.lxor p y -> x = y.
Proof.
  intros H. apply (f_equal (Z.lxor p)) in H.
  rewrite <- !Z.lxor_assoc, Z.lxor_nilpotent, !Z.lxor_0_l in H. exact H.
Qed.

Lemma lxor_residue_inj (p x y : Z) :
  Z.lxor p x mod 2 ^ 128 = Z.lxor p y mod 2 ^ 128 -> x mod 2 ^ 128 = y mod 2 ^ 128.
Proof.
  intros H. apply Z.bits_inj'. intros i Hi.
  destruct (Z.ltb_spec i 128).
  - apply (f_equal (fun z => Z.testbit z i)) in H.
    rewrite !testbit_mod_block, !Z.lxor_spec in H by lia.
    rewrite !testbit_mod_block by lia.
    destruct (Z.testbit p i), (Z.testbit x i), (Z.testbit y i);
      try reflexivity; discriminate H.
  - rewrite !Z.mod_pow2_bits_high by lia. reflexivity.
Qed.

Section Task3_Permutation.

Variable blake2s : list byte -> nat -> list byte.

Hypothesis blake2s_digest_size :
  forall data, List.length (blake2s data 8) = 8%nat.

Local Abbreviation encrypt_block := (encrypt_block blake2s).
Local Abbreviation decrypt_block := (decrypt_block blake2s).
Local Abbreviation cbc_encrypt := (cbc_encrypt blake2s).
Local Abbreviation cfb_encrypt := (cfb_encrypt blake2s).

Lemma decrypt_block_reduces (block key : Z) :
  decrypt_block block key = decrypt_block (block mod 2 ^ 128) key.
Proof.
  destruct (halves_mod_block block) as [Hl Hr].
  unfold_block. cbv zeta. rewrite Hl, Hr. reflexivity.
Qed.

(** X24: with a 128-bit key each block primitive is a permutation of the
    residues modulo 2^128: on arbitrary integers, [encrypt_block] returns the
    same block for two inputs exactly when they agree modulo 2^128, and so
    does [decrypt_block]. *)
Theorem block_primitives_permute_residues (a b key : Z) :
  0 <= key < 2 ^ 128 ->
  (encrypt_block a key = encrypt_block b key <-> a mod 2 ^ 128 = b mod 2 ^ 128)
  /\ (decrypt_block a key = decrypt_block b key
      <-> a mod 2 ^ 128 = b mod 2 ^ 128).
Proof.
  intros Hk. split; split.
  - intros H. destruct (Z.eq_dec (a mod 2 ^ 128) (b mod 2 ^ 128)) as [E|N];
      [exact E|exfalso].
    destruct (encrypt_block_ok blake2s blake2s_digest_size a key Hk) as [x [Ex _]].
    destruct (encrypt_block_ok blake2s blake2s_digest_size b key Hk) as [y [Ey _]].
    apply (encrypt_block_distinct blake2s blake2s_digest_size a b key x y
             Hk N Ex Ey).
    rewrite Ex, Ey in H. injection H as ->. reflexivity.
  - intros H. rewrite (encrypt_block_reduces blake2s a),
      (encrypt_block_reduces blake2s b), H. reflexivity.
  - intros H. destruct (Z.eq_dec (a mod 2 ^ 128) (b mod 2 ^ 128)) as [E|N];
      [exact E|exfalso].
    rewrite (decrypt_block_reduces a), (decrypt_block_reduces b) in H.
    destruct (decrypt_block_ok blake2s blake2s_digest_size (a mod 2 ^ 128) key Hk)
      as [x [Ex _]].
    destruct (decrypt_block_ok blake2s blake2s_digest_size (b mod 2 ^ 128) key Hk)
      as [y [Ey _]].
    apply (decrypt_block_distinct blake2s blake2s_digest_size
             (a mod 2 ^ 128) (b mod 2 ^ 128) key x y Hk);
      try assumption; try (apply Z.mod_pos_bound; reflexivity).
    rewrite Ex, Ey in H. injection H as ->. reflexivity.
  - intros H. rewrite (decrypt_block_reduces a), (decrypt_block_reduces b), H.
    reflexivity.
Qed.

(** X25: the IV is used even for a single block: with a 128-bit key, two IVs
    that differ modulo 2^128 give different first ciphertext blocks, under
    [cbc_encrypt] and under [cfb_encrypt], for any non-empty plaintext. *)
Theorem iv_changes_first_block (key iv iv' p : Z) (rest : list Z) :
  0 <= key < 2 ^ 128 -> iv mod 2 ^ 128 <> iv' mod 2 ^ 128 ->
  (exists c c' cs cs',
     cbc_encrypt (p :: rest) key iv = Ok (c :: cs)
     /\ cbc_encrypt (p :: rest) key iv' = Ok (c' :: cs') /\ c <> c')
  /\ (exists c c' cs cs',
        cfb_encrypt (p :: rest) key iv = Ok (c :: cs)
        /\ cfb_encrypt (p :: rest) key iv' = Ok (c' :: cs') /\ c <> c').
Proof.
  intros Hk Hiv. split.
  - destruct (encrypt_block_ok blake2s blake2s_digest_size (Z.lxor p iv) key Hk)
      as [c [Ec _]].
    destruct (encrypt_block_ok blake2s blake2s_digest_size (Z.lxor p iv') key Hk)
      as [c' [Ec' _]].
    destruct (cbc_encrypt_total blake2s blake2s_digest_size key Hk rest c)
      as [cs [E _]].
    destruct (cbc_encrypt_total blake2s blake2s_digest_size key Hk rest c')
      as [cs' [E' _]].
    exists c, c', cs, cs'.
    rewrite !(cbc_encrypt_cons blake2s), Ec, Ec'. cbn [bind]. rewrite E, E'.
    split; [reflexivity|]. split; [reflexivity|].
    apply (encrypt_block_distinct blake2s blake2s_digest_size
             (Z.lxor p iv) (Z.lxor p iv') key c c' Hk); try assumption.
    intros H. apply Hiv. apply (lxor_residue_inj p), H.
  - destruct (encrypt_block_ok blake2s blake2s_digest_size iv key Hk)
      as [k [Ek _]].
    destruct (encrypt_block_ok blake2s blake2s_digest_size iv' key Hk)
      as [k' [Ek' _]].
    destruct (cfb_encrypt_total blake2s blake2s_digest_size key Hk rest
                (Z.lxor p k)) as [cs [E _]].
    destruct (cfb_encrypt_total blake2s blake2s_digest_size key Hk rest
                (Z.lxor p k')) as [cs' [E' _]].
    exists (Z.lxor p k), (Z.lxor p k'), cs, cs'.
    rewrite !(cfb_encrypt_cons blake2s), Ek, Ek'. cbn [bind]. rewrite E, E'.
    split; [reflexivity|]. split; [reflexivity|].
    intros H. apply lxor_cancel_l in H.
    apply (encrypt_block_distinct blake2s blake2s_digest_size iv iv' key k k' Hk);
      assumption.
Qed.

End Task3_Permutation.

(** ** The further properties on BLAKE2s, at concrete inputs *)

Lemma derive_subkeys_shape_witness :
  0 <= demo_key < 2 ^ 128 /\ 0 <= 8 <= 65536
  /\ exists subkeys,
      derive_subkeys Blake2s.blake2s demo_key 8 = Ok subkeys
      /\ Z.of_nat (List.length subkeys) = 8
      /\ Forall (fun k => 0 <= k < 2 ^ 64) subkeys.
Proof.
  split; [by_computation|]. split; [lia|].
  apply (derive_subkeys_shape Blake2s.blake2s blake2s_digest_size_8 demo_key 8);
    [by_computation | lia].
Defined.

Lemma derive_subkeys_prefix_witness :
  0 <= demo_key < 2 ^ 128 /\ 0 <= 3 <= 8 /\ 8 <= 65536
  /\ exists longer,
      derive_subkeys Blake2s.blake2s demo_key 8 = Ok longer
      /\ derive_subkeys Blake2s.blake2s demo_key 3
         = Ok (firstn (Z.to_nat 3) longer).
Proof.
  split; [by_computation|]. split; [lia|]. split; [lia|].
  apply (derive_subkeys_prefix Blake2s.blake2s demo_key 3 8);
    [by_computation | lia | lia].
Defined.

Lemma derive_subkeys_overflow_witness :
  (~ (0 <= demo_key < 2 ^ 128) \/ 65536 < 65537)
  /\ derive_subkeys Blake2s.blake2s demo_key 65537 = Raise OverflowError.
Proof.
  split; [right; lia|].
  apply (derive_subkeys_overflow Blake2s.blake2s demo_key 65537). right. lia.
Defined.

Lemma round_function_domain_witness :
  (exists f, round_function Blake2s.blake2s 1 2 = Ok f /\ 0 <= f < 2 ^ 64)
  /\ round_function Blake2s.blake2s 1 (2 ^ 64) = Raise OverflowError.
Proof.
  split.
  - apply (proj1 (round_function_domain Blake2s.blake2s blake2s_digest_size_8 1 2)).
    lia.
  - apply (proj2 (round_function_domain Blake2s.blake2s blake2s_digest_size_8
                    1 (2 ^ 64))).
    lia.
Defined.

Lemma block_primitives_reduce_block_witness :
  0 <= demo_key < 2 ^ 128
  /\ encrypt_block Blake2s.blake2s (2 ^ 128 + 5) demo_key
     = encrypt_block Blake2s.blake2s ((2 ^ 128 + 5) mod 2 ^ 128) demo_key
  /\ decrypt_block Blake2s.blake2s (2 ^ 128 + 5) demo_key
     = decrypt_block Blake2s.blake2s ((2 ^ 128 + 5) mod 2 ^ 128) demo_key
  /\ (c <- encrypt_block Blake2s.blake2s (2 ^ 128 + 5) demo_key ;;
      decrypt_block Blake2s.blake2s c demo_key)
     = Ok ((2 ^ 128 + 5) mod 2 ^ 128).
Proof.
  split; [by_computation|].
  destruct (block_primitives_reduce_block Blake2s.blake2s blake2s_digest_size_8
              (2 ^ 128 + 5) demo_key) as [H1 [H2 H3]].
  split; [exact H1|]. split; [exact H2|]. apply H3. by_computation.
Defined.

Lemma flip_bit_toggles_witness :
  (exists flipped,
     flip_bit 5 17 = Ok flipped
     /\ (forall j, 0 <= j ->
           Z.testbit flipped j
           = if j =? 17 then negb (Z.testbit 5 j) else Z.testbit 5 j)
     /\ flip_bit flipped 17 = Ok 5)
  /\ flip_bit 5 (-1) = Raise (ValueError "negative shift count").
Proof.
  split.
  - apply (proj1 (flip_bit_toggles 5 17)). lia.
  - apply (proj2 (flip_bit_toggles 5 (-1))). lia.
Defined.

Lemma bit_diff_hamming_witness :
  0 <= 5 < 2 ^ Z.of_nat 8 /\ 0 <= 3 < 2 ^ Z.of_nat 8
  /\ bit_diff 5 3 = differing_bits 8 5 3
  /\ bit_diff 5 3 <= Z.of_nat 8.
Proof.
  assert (H5 : 0 <= 5 < 2 ^ Z.of_nat 8) by by_computation.
  assert (H3 : 0 <= 3 < 2 ^ Z.of_nat 8) by by_computation.
  split; [exact H5|]. split; [exact H3|].
  apply (bit_diff_hamming 8 5 3 H5 H3).
Defined.

Lemma bit_diff_of_flip_witness :
  0 <= 17
  /\ exists flipped, flip_bit (-9) 17 = Ok flipped /\ bit_diff (-9) flipped = 1.
Proof.
  split; [lia|]. apply (bit_diff_of_flip (-9) 17). lia.
Defined.

Lemma cbc_blockwise_witness :
  0 <= demo_key < 2 ^ 128 /\ nth_error [1; 2; 3] 1 = Some 2
  /\ (exists cs c,
        cbc_encrypt Blake2s.blake2s [1; 2; 3] demo_key demo_iv = Ok cs
        /\ nth_error cs 1 = Some c
        /\ encrypt_block Blake2s.blake2s (Z.lxor 2 (nth 0 cs 0)) demo_key = Ok c)
  /\ (exists ps d,
        cbc_decrypt Blake2s.blake2s [1; 2; 3] demo_key demo_iv = Ok ps
        /\ decrypt_block Blake2s.blake2s 2 demo_key = Ok d
        /\ nth_error ps 1 = Some (Z.lxor d (nth 0 [1; 2; 3] 0))).
Proof.
  split; [by_computation|]. split; [reflexivity|].
  apply (cbc_blockwise Blake2s.blake2s blake2s_digest_size_8 [1; 2; 3]
           demo_key demo_iv 1 2);
    [by_computation | reflexivity].
Defined.

Lemma cfb_blockwise_witness :
  0 <= demo_key < 2 ^ 128 /\ nth_error [1; 2; 3] 1 = Some 2
  /\ (exists cs ks,
        cfb_encrypt Blake2s.blake2s [1; 2; 3] demo_key demo_iv = Ok cs
        /\ encrypt_block Blake2s.blake2s (nth 0 cs 0) demo_key = Ok ks
        /\ nth_error cs 1 = Some (Z.lxor 2 ks))
  /\ (exists ps ks,
        cfb_decrypt Blake2s.blake2s [1; 2; 3] demo_key demo_iv = Ok ps
        /\ encrypt_block Blake2s.blake2s (nth 0 [1; 2; 3] 0) demo_key = Ok ks
        /\ nth_error ps 1 = Some (Z.lxor 2 ks)).
Proof.
  split; [by_computation|]. split; [reflexivity|].
  apply (cfb_blockwise Blake2s.blake2s blake2s_digest_size_8 [1; 2; 3]
           demo_key demo_iv 1 2);
    [by_computation | reflexivity].
Defined.

Lemma corruption_is_confined_witness :
  0 <= demo_key < 2 ^ 128
  /\ exists cbc_tail cfb_tail,
      List.length cbc_tail = List.length [3; 4]
      /\ List.length cfb_tail = List.length [3; 4]
      /\ forall c0 iv,
          exists p0 p1 q0 q1,
            cbc_decrypt Blake2s.blake2s (c0 :: 2 :: [3; 4]) demo_key iv
            = Ok (p0 :: p1 :: cbc_tail)
            /\ cfb_decrypt Blake2s.blake2s (c0 :: 2 :: [3; 4]) demo_key iv
               = Ok (q0 :: q1 :: cfb_tail).
Proof.
  split; [by_computation|].
  apply (corruption_is_confined Blake2s.blake2s blake2s_digest_size_8
           demo_key 2 [3; 4]).
  by_computation.
Defined.

Lemma cbc_encrypt_after_decrypt_witness :
  0 <= demo_key < 2 ^ 128 /\ Forall (fun c => 0 <= c < 2 ^ 128) [1; 2]
  /\ (ps <- cbc_decrypt Blake2s.blake2s [1; 2] demo_key (-7) ;;
      cbc_encrypt Blake2s.blake2s ps demo_key (-7)) = Ok [1; 2].
Proof.
  assert (Hb : Forall (fun b => 0 <= b < 2 ^ 128) [1; 2])
    by (constructor; [lia | constructor; [lia | constructor]]).
  split; [by_computation|]. split; [exact Hb|].
  apply (cbc_encrypt_after_decrypt Blake2s.blake2s blake2s_digest_size_8
           [1; 2] demo_key (-7));
    [by_computation | exact Hb].
Defined.

Lemma cfb_inverse_on_integers_witness :
  0 <= demo_key < 2 ^ 128
  /\ (cs <- cfb_encrypt Blake2s.blake2s [-1; 2 ^ 130] demo_key (-7) ;;
      cfb_decrypt Blake2s.blake2s cs demo_key (-7)) = Ok [-1; 2 ^ 130]
  /\ (ps <- cfb_decrypt Blake2s.blake2s [-1; 2 ^ 130] demo_key (-7) ;;
      cfb_encrypt Blake2s.blake2s ps demo_key (-7)) = Ok [-1; 2 ^ 130].
Proof.
  split; [by_computation|].
  apply (cfb_inverse_on_integers Blake2s.blake2s blake2s_digest_size_8
           [-1; 2 ^ 130] demo_key (-7)).
  by_computation.
Defined.

Lemma wide_key_overflows_witness :
  ~ (0 <= 2 ^ 128 < 2 ^ 128) /\ [1] <> []
  /\ cbc_encrypt Blake2s.blake2s [1] (2 ^ 128) demo_iv = Raise OverflowError
  /\ cbc_decrypt Blake2s.blake2s [1] (2 ^ 128) demo_iv = Raise OverflowError
  /\ cfb_encrypt Blake2s.blake2s [1] (2 ^ 128) demo_iv = Raise OverflowError
  /\ cfb_decrypt Blake2s.blake2s [1] (2 ^ 128) demo_iv = Raise OverflowError
  /\ analyze_cbc Blake2s.blake2s (2 ^ 128) demo_iv [1] = Raise OverflowError
  /\ analyze_cfb Blake2s.blake2s (2 ^ 128) demo_iv [1] = Raise OverflowError.
Proof.
  split; [lia|]. split; [discriminate|].
  apply (wide_key_overflows Blake2s.blake2s [1] (2 ^ 128) demo_iv);
    [lia | discriminate].
Defined.

Lemma modes_preserve_length_witness :
  0 <= demo_key < 2 ^ 128
  /\ (exists cs, cbc_encrypt Blake2s.blake2s [1; -2; 3] demo_key demo_iv = Ok cs
                 /\ List.length cs = List.length [1; -2; 3])
  /\ (exists ps, cbc_decrypt Blake2s.blake2s [1; -2; 3] demo_key demo_iv = Ok ps
                 /\ List.length ps = List.length [1; -2; 3])
  /\ (exists cs, cfb_encrypt Blake2s.blake2s [1; -2; 3] demo_key demo_iv = Ok cs
                 /\ List.length cs = List.length [1; -2; 3])
  /\ (exists ps, cfb_decrypt Blake2s.blake2s [1; -2; 3] demo_key demo_iv = Ok ps
                 /\ List.length ps = List.length [1; -2; 3]).
Proof.
  split; [by_computation|].
  apply (modes_preserve_length Blake2s.blake2s blake2s_digest_size_8
           [1; -2; 3] demo_key demo_iv).
  by_computation.
Defined.

Lemma analyze_reports_bounds_witness :
  0 <= demo_key < 2 ^ 128
  /\ (exists report,
        analyze_cbc Blake2s.blake2s demo_key demo_iv (1 :: 2 :: [3]) = Ok report
        /\ mode report = "CBC mode"%string /\ bit_flip_index report = 17
        /\ p2_diff report = 1 /\ 1 <= p1_diff report <= 128)
  /\ (exists report,
        analyze_cfb Blake2s.blake2s demo_key demo_iv (1 :: 2 :: [3]) = Ok report
        /\ mode report = "CFB mode"%string /\ bit_flip_index report = 17
        /\ p1_diff report = 1 /\ 1 <= p2_diff report <= 128).
Proof.
  split; [by_computation|].
  apply (analyze_reports_bounds Blake2s.blake2s blake2s_digest_size_8
           demo_key demo_iv 1 2 [3]).
  by_computation.
Defined.

Lemma to_block_surrogate_witness :
  In 0xD800%N [0x41%N; 0xD800%N] /\ (0xD800 <= 0xD800 <= 0xDFFF)%N
  /\ to_block [0x41%N; 0xD800%N] = Raise UnicodeEncodeError.
Proof.
  assert (Hin : In 0xD800%N [0x41%N; 0xD800%N]) by (right; left; reflexivity).
  split; [exact Hin|]. split; [lia|].
  apply (to_block_surrogate [0x41%N; 0xD800%N] 0xD800%N Hin). lia.
Defined.

Lemma to_block_ascii_witness :
  Forall (fun c => (c < 0x80)%N) (Py.str_of_ascii "Plaintext block1")
  /\ to_block (Py.str_of_ascii "Plaintext block1")
     = Ok (Z.shiftl
             (fold_left (fun acc c => acc * 256 + Z.of_N c)
                        (Py.str_of_ascii "Plaintext block1") 0)
             (8 * Z.of_nat
                    (16 - List.length (Py.str_of_ascii "Plaintext block1")))).
Proof.
  assert (Ha : Forall (fun c => (c < 0x80)%N)
                      (Py.str_of_ascii "Plaintext block1"))
    by (cbv [Py.str_of_ascii list_ascii_of_string map]; repeat constructor).
  split; [exact Ha|].
  apply (proj2 (to_block_ascii (Py.str_of_ascii "Plaintext block1") Ha)).
  cbn. lia.
Defined.

Lemma to_block_trailing_nul_witness :
  Py.str_encode_utf8 (Py.str_of_ascii "abc") = Ok (bytes_of_ascii "abc")
  /\ (List.length (bytes_of_ascii "abc") < 16)%nat
  /\ to_block (Py.str_of_ascii "abc" ++ [0%N]) = to_block (Py.str_of_ascii "abc").
Proof.
  split; [reflexivity|]. split; [cbn; lia|].
  apply (to_block_trailing_nul (Py.str_of_ascii "abc") (bytes_of_ascii "abc"));
    [reflexivity | cbn; lia].
Defined.

Lemma int_to_hex_fixed_width_witness :
  0 <= 255 < 2 ^ 128 /\ 0 <= 256 < 2 ^ 128
  /\ String.length (int_to_hex 255) = 34%nat
  /\ (exists digits,
        int_to_hex 255 = String "0" (String "x" digits)
        /\ String.length digits = 32%nat)
  /\ (int_to_hex 255 = int_to_hex 256 -> 255 = 256).
Proof.
  split; [lia|]. split; [lia|].
  apply (int_to_hex_fixed_width 255 256); lia.
Defined.

Lemma block_primitives_permute_residues_witness :
  0 <= demo_key < 2 ^ 128
  /\ (encrypt_block Blake2s.blake2s 5 demo_key
      = encrypt_block Blake2s.blake2s (2 ^ 128 + 5) demo_key
      <-> 5 mod 2 ^ 128 = (2 ^ 128 + 5) mod 2 ^ 128)
  /\ (decrypt_block Blake2s.blake2s 5 demo_key
      = decrypt_block Blake2s.blake2s (2 ^ 128 + 5) demo_key
      <-> 5 mod 2 ^ 128 = (2 ^ 128 + 5) mod 2 ^ 128).
Proof.
  split; [by_computation|].
  apply (block_primitives_permute_residues Blake2s.blake2s blake2s_digest_size_8
           5 (2 ^ 128 + 5) demo_key).
  by_computation.
Defined.

Lemma iv_changes_first_block_witness :
  0 <= demo_key < 2 ^ 128 /\ 1 mod 2 ^ 128 <> 2 mod 2 ^ 128
  /\ (exists c c' cs cs',
        cbc_encrypt Blake2s.blake2s (3 :: []) demo_key 1 = Ok (c :: cs)
        /\ cbc_encrypt Blake2s.blake2s (3 :: []) demo_key 2 = Ok (c' :: cs')
        /\ c <> c')
  /\ (exists c c' cs cs',
        cfb_encrypt Blake2s.blake2s (3 :: []) demo_key 1 = Ok (c :: cs)
        /\ cfb_encrypt Blake2s.blake2s (3 :: []) demo_key 2 = Ok (c' :: cs')
        /\ c <> c').
Proof.
  assert (Hiv : 1 mod 2 ^ 128 <> 2 mod 2 ^ 128) by (vm_compute; discriminate).
  split; [by_computation|]. split; [exact Hiv|].
  apply (iv_changes_first_block Blake2s.blake2s blake2s_digest_size_8
           demo_key 1 2 3 []);
    [by_computation | exact Hiv].
Defined.
